(** * mztest: the quiz application of [app.py]

    A shallow embedding of the quiz loader, the grader, the tier resolver and
    the page state machine of [app.py], with the properties of its
    specification stated and settled against that embedding.

    Python values are modelled as follows.
    - [str] is a sequence of Unicode code points: [pystr := list N].
    - [int] is unbounded: [Z].
    - [dict] with string keys is a finite map ([gmap]); a dict built by
      successive assignments keeps the last value of a repeated key.
    - [None] is the [None] of an [option].
    - A call that may raise, or that may end the script run through
      [st.stop()], returns an [outcome]. *)

From stdpp Require Import gmap strings list sorting.
From Stdlib Require Import ZArith Lia Ascii.

Local Open Scope N_scope.

(** ** Strings *)

Abbreviation pystr := (list N).

(** Source literals are written as Rocq strings, whose bytes are the UTF-8
    encoding of the text; [py] decodes them to code points. *)
Fixpoint utf8_decode (bs : list N) : pystr :=
  match bs with
  | [] => []
  | b0 :: r0 =>
    if b0 <? 0x80 then b0 :: utf8_decode r0
    else if b0 <? 0xE0 then
      match r0 with
      | b1 :: r1 => ((b0 - 0xC0) * 0x40 + (b1 - 0x80)) :: utf8_decode r1
      | _ => []
      end
    else if b0 <? 0xF0 then
      match r0 with
      | b1 :: b2 :: r2 =>
        ((b0 - 0xE0) * 0x1000 + (b1 - 0x80) * 0x40 + (b2 - 0x80)) :: utf8_decode r2
      | _ => []
      end
    else
      match r0 with
      | b1 :: b2 :: b3 :: r3 =>
        ((b0 - 0xF0) * 0x40000 + (b1 - 0x80) * 0x1000 + (b2 - 0x80) * 0x40 + (b3 - 0x80))
          :: utf8_decode r3
      | _ => []
      end
  end.

Definition py (s : string) : pystr :=
  utf8_decode (N_of_ascii <$> String.list_ascii_of_string s).

(** [Py_UNICODE_ISSPACE]: the code points that [str.strip()] removes and
    that [str.isspace()] accepts. *)
Definition is_space (c : N) : bool :=
  ((0x09 <=? c) && (c <=? 0x0D)) || ((0x1C <=? c) && (c <=? 0x20))
  || (c =? 0x85) || (c =? 0xA0) || (c =? 0x1680)
  || ((0x2000 <=? c) && (c <=? 0x200A))
  || (c =? 0x2028) || (c =? 0x2029) || (c =? 0x202F) || (c =? 0x205F)
  || (c =? 0x3000).

Fixpoint lstrip_by (p : N → bool) (s : pystr) : pystr :=
  match s with
  | [] => []
  | c :: s' => if p c then lstrip_by p s' else s
  end.

Definition rstrip_by (p : N → bool) (s : pystr) : pystr :=
  reverse (lstrip_by p (reverse s)).

(** [s.strip()] *)
Definition strip (s : pystr) : pystr := rstrip_by is_space (lstrip_by is_space s).

(** [x or ""] for [x] a [str] or [None]. *)
Definition or_empty (x : option pystr) : pystr := default [] x.

(** [str.lower()] restricted to ASCII text: the letters A-Z move to a-z. *)
Definition ascii_lower_char (c : N) : N :=
  if (0x41 <=? c) && (c <=? 0x5A) then c + 0x20 else c.

Definition ascii_lower (s : pystr) : pystr := ascii_lower_char <$> s.

Definition is_ascii (s : pystr) : Prop := Forall (λ c, c < 0x80) s.

Definition TYPE_SUBJECTIVE : pystr := Eval vm_compute in py "주관식".
Definition TYPE_CHOICE : pystr := Eval vm_compute in py "객관식".

(** ** Grading and tiers *)

Section Grader.
(** [str.lower()]: Unicode's full lower-case mapping.  Its table belongs to
    the interpreter, so it is a parameter here; the properties below use
    only that on ASCII text it is [ascii_lower]. *)
Variable lower : pystr → pystr.

Definition judge (user_answer correct_answer qtype : option pystr) : bool :=
  let ua := strip (or_empty user_answer) in
  let ca := strip (or_empty correct_answer) in
  if bool_decide (qtype = Some TYPE_SUBJECTIVE) then
    bool_decide (lower ua = lower ca)
  else
    bool_decide (ua = ca).
End Grader.

Definition TIER1 : pystr * pystr :=
  Eval vm_compute in (py "result1.png", py "오.. 아직 MZ 감성 입문! 다음엔 더 잘하실 수 있어요 😉").
Definition TIER2 : pystr * pystr :=
  Eval vm_compute in (py "result2.png", py "좋아요! 감이 오기 시작했어요 😎").
Definition TIER3 : pystr * pystr :=
  Eval vm_compute in (py "result3.png", py "우와! 꽤나 MZ 트렌디하신데요? 🔥").
Definition TIER4 : pystr * pystr :=
  Eval vm_compute in (py "result4.png", py "완벽! 당신은 거의 MZ 그 자체 🙌").

Definition result_tier (score : Z) : pystr * pystr :=
  if (score <=? 5)%Z then TIER1
  else if (6 <=? score)%Z && (score <=? 10)%Z then TIER2
  else if (11 <=? score)%Z && (score <=? 15)%Z then TIER3
  else TIER4.

(** ** Outcomes of a call *)

Inductive exn :=
| ValueError | TypeError | AttributeError | IndexError | CsvError
| OSError | UnicodeDecodeError.

(** What the page shows to the user, as far as the properties below speak
    about it: [st.error], [st.warning], [st.header], [st.success] and
    [st.table].  Markup, styling and images are left out. *)
Record result_row := {
  r_number : Z;          (* "문항" *)
  r_question : pystr;    (* "문제" *)
  r_mine : pystr;        (* "내 답" *)
  r_answer : pystr;      (* "정답" *)
  r_mark : pystr         (* "정오" *)
}.

Inductive notice :=
| ShowError (msg : pystr)
| ShowWarning (msg : pystr)
| ShowHeader (msg : pystr)
| ShowSuccess (total correct : Z) (msg : pystr)
| ShowTable (rows : list result_row).

(** A call returns a value, ends the script run through [st.stop()] after
    showing some notices, or raises. *)
Inductive outcome (A : Type) :=
| Returns (a : A)
| Stops (shown : list notice)
| Raises (e : exn).
Arguments Returns {A} a.
Arguments Stops {A} shown.
Arguments Raises {A} e.

#[global] Instance outcome_ret : MRet outcome := λ A a, Returns a.
#[global] Instance outcome_bind : MBind outcome := λ A B f m,
  match m with
  | Returns a => f a
  | Stops shown => Stops shown
  | Raises e => Raises e
  end.

(** ** Reading the file *)

Definition LF : N := 0x0A.
Definition CR : N := 0x0D.
Definition BOM : N := 0xFEFF.

(** The [utf-8-sig] codec drops one leading byte-order mark. *)
Definition decode_sig (s : pystr) : pystr :=
  match s with
  | c :: s' => if c =? BOM then s' else s
  | [] => []
  end.

(** Text mode with the default [newline=None]: "\r\n" and "\r" are read as
    "\n". *)
Fixpoint universal_newlines (s : pystr) : pystr :=
  match s with
  | [] => []
  | c :: s' =>
    if c =? CR then
      LF :: match s' with
            | c2 :: s'' => if c2 =? LF then universal_newlines s'' else universal_newlines s'
            | [] => []
            end
    else c :: universal_newlines s'
  end.

(** The line boundaries of [str.splitlines()]. *)
Definition is_linebreak (c : N) : bool :=
  ((0x0A <=? c) && (c <=? 0x0D)) || ((0x1C <=? c) && (c <=? 0x1E))
  || (c =? 0x85) || (c =? 0x2028) || (c =? 0x2029).

(** [s.splitlines()]: [cur] is the line being read.  "\r\n" is one boundary,
    and a boundary at the end of the text opens no further line. *)
Fixpoint splitlines_from (cur s : pystr) : list pystr :=
  match s with
  | [] => match cur with [] => [] | _ => [cur] end
  | c :: s' =>
    if is_linebreak c then
      cur :: (if c =? CR then
                match s' with
                | c2 :: s'' => if c2 =? LF then splitlines_from [] s'' else splitlines_from [] s'
                | [] => []
                end
              else splitlines_from [] s')
    else splitlines_from (cur ++ [c]) s'
  end.

Definition splitlines (s : pystr) : list pystr := splitlines_from [] s.

(** ["\n".join(lines)] *)
Fixpoint join_lines (lines : list pystr) : pystr :=
  match lines with
  | [] => []
  | [ln] => ln
  | ln :: rest => ln ++ LF :: join_lines rest
  end.

(** Iterating an [io.StringIO]: the lines of the buffer, each with its
    closing "\n" (the last one may have none). *)
Fixpoint io_lines_from (cur s : pystr) : list pystr :=
  match s with
  | [] => match cur with [] => [] | _ => [cur] end
  | c :: s' =>
    if c =? LF then (cur ++ [c]) :: io_lines_from [] s'
    else io_lines_from (cur ++ [c]) s'
  end.

Definition io_lines (s : pystr) : list pystr := io_lines_from [] s.

(** ** [csv.reader] with the default dialect

    The reader of the [csv] module, in its default ("excel") dialect:
    a comma as delimiter, the double quote as quote character, doubled
    quotes inside a quoted field, no escape character, not strict.  The
    states and the transitions are those of the module's character
    automaton; the states that only an escape character reaches are left
    out.  A field may hold at most [csv.field_size_limit()] characters, which
    is 128 * 1024 unless a program sets it; [app.py] does not. *)

Inductive ParserState :=
| START_RECORD | START_FIELD | IN_FIELD | IN_QUOTED_FIELD
| QUOTE_IN_QUOTED_FIELD | EAT_CRNL.

#[global] Instance ParserState_eq_dec : EqDecision ParserState.
Proof. solve_decision. Defined.

Record ReaderObj := {
  state : ParserState;
  field : pystr;             (* the field being read *)
  fields : list pystr        (* the fields of the record read so far *)
}.

Definition DELIMITER : N := 0x2C.
Definition QUOTECHAR : N := 0x22.

Definition parse_reset : ReaderObj :=
  {| state := START_RECORD; field := []; fields := [] |}.

Definition set_state (st : ParserState) (r : ReaderObj) : ReaderObj :=
  {| state := st; field := field r; fields := fields r |}.

Definition parse_save_field (r : ReaderObj) : ReaderObj :=
  {| state := state r; field := []; fields := fields r ++ [field r] |}.

Definition FIELD_LIMIT : N := 131072.

(** [None] is [csv.Error]: the field is at its limit already. *)
Definition parse_add_char (r : ReaderObj) (c : N) : option ReaderObj :=
  if FIELD_LIMIT <=? N.of_nat (length (field r)) then None
  else Some {| state := state r; field := field r ++ [c]; fields := fields r |}.

Definition is_newline (c : N) : bool := (c =? LF) || (c =? CR).

(** The case [START_FIELD] of the automaton, which [START_RECORD] falls
    into on an ordinary character.  [None] as a character is the end of a
    line. *)
Definition start_field (r : ReaderObj) (c : option N) : option ReaderObj :=
  match c with
  | None => Some (set_state START_RECORD (parse_save_field r))
  | Some ch =>
    if is_newline ch then Some (set_state EAT_CRNL (parse_save_field r))
    else if ch =? QUOTECHAR then Some (set_state IN_QUOTED_FIELD r)
    else if ch =? DELIMITER then Some (set_state START_FIELD (parse_save_field r))
    else set_state IN_FIELD <$> parse_add_char r ch
  end.

(** One step of the automaton; [None] as a result is [csv.Error]. *)
Definition parse_process_char (r : ReaderObj) (c : option N) : option ReaderObj :=
  match state r with
  | START_RECORD =>
    match c with
    | None => Some r
    | Some ch => if is_newline ch then Some (set_state EAT_CRNL r) else start_field r c
    end
  | START_FIELD => start_field r c
  | IN_FIELD =>
    match c with
    | None => Some (set_state START_RECORD (parse_save_field r))
    | Some ch =>
      if is_newline ch then Some (set_state EAT_CRNL (parse_save_field r))
      else if ch =? DELIMITER then Some (set_state START_FIELD (parse_save_field r))
      else parse_add_char r ch
    end
  | IN_QUOTED_FIELD =>
    match c with
    | None => Some r
    | Some ch =>
      if ch =? QUOTECHAR then Some (set_state QUOTE_IN_QUOTED_FIELD r)
      else parse_add_char r ch
    end
  | QUOTE_IN_QUOTED_FIELD =>
    match c with
    | None => Some (set_state START_RECORD (parse_save_field r))
    | Some ch =>
      if ch =? QUOTECHAR then set_state IN_QUOTED_FIELD <$> parse_add_char r ch
      else if ch =? DELIMITER then Some (set_state START_FIELD (parse_save_field r))
      else if is_newline ch then Some (set_state EAT_CRNL (parse_save_field r))
      else set_state IN_FIELD <$> parse_add_char r ch
    end
  | EAT_CRNL =>
    match c with
    | None => Some (set_state START_RECORD r)
    | Some ch => if is_newline ch then Some r else None
    end
  end.

(** The characters of one line, then the end of the line. *)
Fixpoint parse_line (r : ReaderObj) (line : pystr) : option ReaderObj :=
  match line with
  | [] => parse_process_char r None
  | c :: line' => r' ← parse_process_char r (Some c); parse_line r' line'
  end.

(** The records the reader yields over the lines it is given, in order, and
    whether it then stopped on a [csv.Error].  A record is complete when the
    automaton is back in [START_RECORD] at the end of a line; when the input
    ends inside a record, what has been read is that record. *)
Fixpoint read_records (r : ReaderObj) (lines : list pystr) : list (list pystr) * bool :=
  match lines with
  | [] =>
    if negb (bool_decide (field r = [])) || bool_decide (state r = IN_QUOTED_FIELD)
    then ([fields (parse_save_field r)], true)
    else ([], true)
  | line :: rest =>
    match parse_line r line with
    | None => ([], false)
    | Some r' =>
      if bool_decide (state r' = START_RECORD) then
        let '(recs, ok) := read_records parse_reset rest in (fields r' :: recs, ok)
      else read_records r' rest
    end
  end.

Definition csv_reader (lines : list pystr) : list (list pystr) * bool :=
  read_records parse_reset lines.

(** A character that is no "\r" and no "\n", and a line as the loader gives
    it to the reader: such characters, closed or not by one "\n". *)
Definition plain (c : N) : Prop := is_newline c = false.

Definition reader_line (ln : pystr) : Prop :=
  ∃ body, (ln = body ∨ ln = body ++ [LF]) ∧ Forall plain body.

(** ** [csv.DictReader] *)

(** A value of a row dict: a cell of the line, [None] for a column the line
    is too short for ([restval]), or the list of the cells beyond the header
    ([restkey], stored under the key [None]). *)
Inductive cell :=
| CStr (s : pystr)
| CNone
| CList (l : list pystr).

(** [d = dict(zip(fieldnames, row))], then [d[restkey] = row[lf:]] for a
    long row, or [d[key] = restval] for every [key] of [fieldnames[lr:]]
    for a short one.  [dict_from] builds it over a dict [d0]; the reader
    starts from the empty dict. *)
Definition dict_from (d0 : gmap (option pystr) cell) (fieldnames row : list pystr)
  : gmap (option pystr) cell :=
  let d := foldl (λ d kv, <[Some kv.1 := CStr kv.2]> d) d0 (zip fieldnames row) in
  let lf := length fieldnames in
  let lr := length row in
  if (lf <? lr)%nat then <[None := CList (drop lf row)]> d
  else if (lr <? lf)%nat then foldl (λ d key, <[Some key := CNone]> d) d (drop lr fieldnames)
  else d.

Definition dict_of_record (fieldnames row : list pystr) : gmap (option pystr) cell :=
  dict_from ∅ fieldnames row.

(** The reader's first record gives the field names; every later record
    that is not empty gives a row. *)
Definition data_records (records : list (list pystr)) : list (list pystr) :=
  List.filter (λ rec, negb (bool_decide (rec = []))) records.

Definition dict_rows (fieldnames : list pystr) (records : list (list pystr))
  : list (gmap (option pystr) cell) :=
  dict_of_record fieldnames <$> data_records records.

(** ** Questions *)

Record question := {
  q_id : pystr;
  q_question : pystr;
  q_type : pystr;
  q_image : pystr;
  q_choices : list pystr;
  q_answer : pystr
}.

(** [fn.lstrip(BOM)]: every leading byte-order mark goes. *)
Definition clean_name (fn : pystr) : pystr := lstrip_by (λ c, c =? BOM) fn.

(** [{clean: orig for clean, orig in zip(clean_names, dr.fieldnames)}] *)
Definition make_field_map (fieldnames : list pystr) : gmap pystr pystr :=
  foldl (λ m kv, <[kv.1 := kv.2]> m) ∅ (zip (clean_name <$> fieldnames) fieldnames).

(** The local function [get] of [load_questions], with [default=""]:
    [(row.get(real, default) or "").strip()].  A non-empty list has no
    [strip]. *)
Definition get (field_map : gmap pystr pystr) (row : gmap (option pystr) cell)
    (key : pystr) : outcome pystr :=
  let real := default key (field_map !! key) in
  match default (CStr []) (row !! Some real) with
  | CStr s => Returns (strip s)
  | CNone => Returns (strip [])
  | CList [] => Returns (strip [])
  | CList (_ :: _) => Raises AttributeError
  end.

Definition K_ID : pystr := Eval vm_compute in py "id".
Definition K_QUESTION : pystr := Eval vm_compute in py "question".
Definition K_TYPE : pystr := Eval vm_compute in py "type".
Definition K_IMAGE : pystr := Eval vm_compute in py "image".
Definition K_CHOICE1 : pystr := Eval vm_compute in py "choice1".
Definition K_CHOICE2 : pystr := Eval vm_compute in py "choice2".
Definition K_CHOICE3 : pystr := Eval vm_compute in py "choice3".
Definition K_ANSWER : pystr := Eval vm_compute in py "answer".

(** The dict appended to [items] for one row. *)
Definition make_item (field_map : gmap pystr pystr) (row : gmap (option pystr) cell)
  : outcome question :=
  i ← get field_map row K_ID;
  q ← get field_map row K_QUESTION;
  t ← get field_map row K_TYPE;
  g ← get field_map row K_IMAGE;
  c1 ← get field_map row K_CHOICE1;
  c2 ← get field_map row K_CHOICE2;
  c3 ← get field_map row K_CHOICE3;
  a ← get field_map row K_ANSWER;
  mret {| q_id := i; q_question := q; q_type := t; q_image := g;
          q_choices := [c1; c2; c3]; q_answer := a |}.

Fixpoint make_items (field_map : gmap pystr pystr) (rows : list (gmap (option pystr) cell))
  : outcome (list question) :=
  match rows with
  | [] => mret []
  | row :: rows' =>
    item ← make_item field_map row;
    items ← make_items field_map rows';
    mret (item :: items)
  end.

(** ** [int(x)] for a string, and the sort *)

(** The white space of the C locale, which the integer parser skips. *)
Definition is_c_space (c : N) : bool := ((0x09 <=? c) && (c <=? 0x0D)) || (c =? 0x20).

Definition UNDERSCORE : N := 0x5F.

Definition digit_value (c : N) : option Z :=
  if (0x30 <=? c) && (c <=? 0x39) then Some (Z.of_N (c - 0x30)) else None.

(** Decimal digits, with single underscores between them: the value read,
    the number of digits and the text left, or [None] for a doubled or
    closing underscore.  [prev] is the character before. *)
Fixpoint scan_digits (acc : Z) (digits : N) (prev : N) (s : pystr)
  : option (Z * N * pystr) :=
  match s with
  | [] => if prev =? UNDERSCORE then None else Some (acc, digits, [])
  | c :: s' =>
    if c =? UNDERSCORE then
      if prev =? UNDERSCORE then None else scan_digits acc digits c s'
    else
      match digit_value c with
      | Some d => scan_digits (10 * acc + d) (digits + 1) c s'
      | None => if prev =? UNDERSCORE then None else Some (acc, digits, s)
      end
  end.

(** [sys.get_int_max_str_digits()]: the interpreter reads no decimal text
    of more digits, leading zeros counted.  4300 unless a program or the
    environment sets it; [app.py] does not. *)
Definition MAX_STR_DIGITS : N := 4300.

(** The base-10 parser on the text brought to ASCII: white space, a sign,
    digits (no more than the limit), white space. *)
Definition long_from_string (s : pystr) : option Z :=
  let s1 := lstrip_by is_c_space s in
  let '(sign, s2) :=
    match s1 with
    | c :: s' => if c =? 0x2B then (1%Z, s') else if c =? 0x2D then ((-1)%Z, s') else (1%Z, s1)
    | [] => (1%Z, s1)
    end in
  match s2 with
  | c :: _ =>
    if c =? UNDERSCORE then None
    else
      '(v, digits, rest) ← scan_digits 0 0 0 s2;
      if bool_decide (length rest = length s2) then None
      else if MAX_STR_DIGITS <? digits then None
      else match lstrip_by is_c_space rest with
           | [] => Some (sign * v)%Z
           | _ => None
           end
  | [] => None
  end.

Section Loader.
(** [Py_UNICODE_TODECIMAL] outside ASCII: the digit value of a code point
    of Unicode's category Nd.  The table belongs to the interpreter, so it
    is a parameter. *)
Variable unicode_decimal : N → option N.

(** Before parsing, [int] maps every white space outside ASCII to a blank
    and every decimal digit outside ASCII to its ASCII digit; any other
    code point outside ASCII makes the text no number. *)
Definition to_ascii_char (c : N) : option N :=
  if c <? 0x80 then Some c
  else if is_space c then Some 0x20
  else (λ d, 0x30 + d) <$> unicode_decimal c.

(** [int(x)] for a [str]; [None] is [ValueError]. *)
Definition py_int (x : pystr) : option Z :=
  mapM to_ascii_char x ≫= long_from_string.

Definition SENTINEL : Z := 10 ^ 9.

Definition safe_int (x : pystr) : Z :=
  match py_int x with
  | Some n => n
  | None => SENTINEL
  end.

Definition sort_key (q : question) : Z := safe_int (q_id q).
End Loader.

(** [list.sort(key=...)] is a stable ascending sort.  The arrangement that
    is ascending by key and keeps the input order among equal keys is unique
    (see [stable_sort_unique] below), so the sort is modelled by a stable
    insertion sort. *)
Section Sort.
Context {A : Type} (key : A → Z).

Fixpoint insert_by_key (x : A) (l : list A) : list A :=
  match l with
  | [] => [x]
  | y :: l' => if (key x <=? key y)%Z then x :: l else y :: insert_by_key x l'
  end.

Definition sort_by_key (l : list A) : list A := foldr insert_by_key [] l.

(** Ascending by key, and the elements of one key. *)
Definition key_le (x y : A) : Prop := (key x ≤ key y)%Z.
Definition has_key (k : Z) (x : A) : bool := (key x =? k)%Z.
End Sort.

(** ** The loader *)

(** What the path of the file leads to: nothing ([os.path.exists] is
    false); something that [open] or [read] raises on (a directory, a file
    the process may not read, bytes that are no UTF-8); or a file of
    UTF-8 text, given by its code points, a leading byte-order mark
    included. *)
Inductive file :=
| Absent
| Unreadable (e : exn)
| Readable (text : pystr).

Definition MSG_NOT_FOUND : pystr := Eval vm_compute in py "CSV 파일을 찾을 수 없습니다: ".
Definition MSG_NO_DATA : pystr := Eval vm_compute in py "CSV에 데이터가 없습니다.".

(** [lines = [ln for ln in raw if ln.strip() != ""]] *)
Definition nonblank_lines (raw : list pystr) : list pystr :=
  List.filter (λ ln, negb (bool_decide (strip ln = []))) raw.

(** The lines of the file that the reader is given. *)
Definition usable_lines (text : pystr) : list pystr :=
  nonblank_lines (splitlines (universal_newlines (decode_sig text))).

Section LoadQuestions.
Variable unicode_decimal : N → option N.

(** The files of the machine, by path. *)
Variable files : pystr → file.

(** The statements of [load_questions] before the sort: the items in the
    order of the rows. *)
Definition read_items (csv_path : pystr) : outcome (list question) :=
  match files csv_path with
  | Absent => Stops [ShowError (MSG_NOT_FOUND ++ csv_path)]
  | Unreadable e => Raises e
  | Readable text =>
    let raw := splitlines (universal_newlines (decode_sig text)) in
    let lines := nonblank_lines raw in
    match lines with
    | [] => Stops [ShowError MSG_NO_DATA]
    | _ =>
      let buf := join_lines lines in
      let '(records, ok) := csv_reader (io_lines buf) in
      match records with
      | [] => Raises (if ok then TypeError else CsvError)
      | fieldnames :: records' =>
        let field_map := make_field_map fieldnames in
        items ← make_items field_map (dict_rows fieldnames records');
        if ok then mret items else Raises CsvError
      end
    end
  end.

Definition load_questions (csv_path : pystr) : outcome (list question) :=
  items ← read_items csv_path;
  mret (sort_by_key (sort_key unicode_decimal) items).
End LoadQuestions.

(** ** The pages *)

(** [st.session_state].  The script sets its three keys together, at its
    first run, before anything else can end the run, so the store is either
    empty ([None]) or holds all three. *)
Record session := {
  page : Z;                      (* 0: start, 1..N: questions, N+1: result *)
  answers : gmap pystr pystr;    (* {id: answer} *)
  username : pystr
}.

Definition fresh_session : session := {| page := 0; answers := ∅; username := [] |}.

Definition set_page (p : Z) (ss : session) : session :=
  {| page := p; answers := answers ss; username := username ss |}.
Definition set_answers (a : gmap pystr pystr) (ss : session) : session :=
  {| page := page ss; answers := a; username := username ss |}.
Definition set_username (u : pystr) (ss : session) : session :=
  {| page := page ss; answers := answers ss; username := u |}.

(** What the widgets of one run return: the text of the name box, the start
    button, the answer widget of the form (a radio with nothing selected
    returns [None]), the submit button of the form, the restart button.  A
    run reads only the widgets of the page it shows. *)
Record inputs := {
  typed_name : pystr;
  start_pressed : bool;
  form_answer : option pystr;
  form_submitted : bool;
  restart_pressed : bool
}.

(** How a run of the script ends: it returns, asks for a rerun
    ([st.rerun()]), stops ([st.stop()]), or crashes with an exception that
    nothing catches. *)
Inductive ending := Returned | Rerun | Stopped | Crashed (e : exn).

Record run := {
  after : option session;
  shown : list notice;
  ended : ending
}.

Definition MSG_CHOOSE : pystr := Eval vm_compute in py "보기를 선택해 주세요.".
Definition MSG_ENTER : pystr := Eval vm_compute in py "정답을 입력해 주세요.".
Definition MSG_RESULT : pystr := Eval vm_compute in py "결과".
Definition MSG_RESULT_OF : pystr := Eval vm_compute in py "님의 결과".
Definition MARK_O : pystr := Eval vm_compute in py "O".
Definition MARK_X : pystr := Eval vm_compute in py "X".

(** [not answer] for [answer] a [str] or [None]. *)
Definition falsy (answer : option pystr) : bool :=
  match answer with
  | None | Some [] => true
  | Some (_ :: _) => false
  end.

Section App.
Variable lower : pystr → pystr.
Variable unicode_decimal : N → option N.
Variable files : pystr → file.
(** [os.path.join(base_dir, "mz_test.csv")] *)
Variable csv_path : pystr.

(** The loop of the result page over the questions, with its two
    accumulators.  [int(qid)] raises [ValueError] on an id that is no
    number. *)
Fixpoint grade (questions : list question) (answers : gmap pystr pystr)
    (correct : Z) (rows : list result_row) : outcome (Z * list result_row) :=
  match questions with
  | [] => Returns (correct, rows)
  | q :: questions' =>
    let qid := q_id q in
    let my := default [] (answers !! qid) in
    let ok := judge lower (Some my) (Some (q_answer q)) (Some (q_type q)) in
    let correct' := if ok then (correct + 1)%Z else correct in
    match py_int unicode_decimal qid with
    | None => Raises ValueError
    | Some number =>
      grade questions' answers correct'
        (rows ++ [{| r_number := number; r_question := q_question q; r_mine := my;
                     r_answer := q_answer q;
                     r_mark := if ok then MARK_O else MARK_X |}])
    end
  end.

(** The start page. *)
Definition start_page (ss : session) (inp : inputs) : run :=
  let ss1 := set_username (typed_name inp) ss in
  if start_pressed inp then
    {| after := Some (set_page 1 ss1); shown := []; ended := Rerun |}
  else
    {| after := Some ss1; shown := []; ended := Returned |}.

(** A question page, for the question [q] it shows. *)
Definition question_page (q : question) (ss : session) (inp : inputs) : run :=
  let answer := form_answer inp in
  if form_submitted inp then
    if bool_decide (strip (q_type q) = TYPE_CHOICE) && falsy answer then
      {| after := Some ss; shown := [ShowWarning MSG_CHOOSE]; ended := Stopped |}
    else
      let is_blank_subjective :=
        bool_decide (strip (q_type q) = TYPE_SUBJECTIVE)
        && bool_decide (strip (or_empty answer) = []) in
      if is_blank_subjective then
        {| after := Some ss; shown := [ShowWarning MSG_ENTER]; ended := Stopped |}
      else
        let ss1 := set_answers (<[q_id q := strip (or_empty answer)]> (answers ss)) ss in
        {| after := Some (set_page (page ss1 + 1) ss1); shown := []; ended := Rerun |}
  else
    {| after := Some ss; shown := []; ended := Returned |}.

(** The result page.  Of its calls that draw, the header, the success
    notice and the table are kept as notices; what Streamlit does inside a
    drawing call is not part of the script and is not modelled. *)
Definition result_page (questions : list question) (ss : session) (inp : inputs) : run :=
  let total := Z.of_nat (length questions) in
  match grade questions (answers ss) 0 [] with
  | Returns (correct, rows) =>
    let name := strip (username ss) in
    let header := match name with [] => MSG_RESULT | _ => name ++ MSG_RESULT_OF end in
    let '(img_name, msg) := result_tier correct in
    let notices := [ShowHeader header; ShowSuccess total correct msg; ShowTable rows] in
    if restart_pressed inp then
      {| after := Some (set_answers ∅ (set_page 0 ss)); shown := notices; ended := Rerun |}
    else
      {| after := Some ss; shown := notices; ended := Returned |}
  | Stops notices => {| after := Some ss; shown := notices; ended := Stopped |}
  | Raises e => {| after := Some ss; shown := []; ended := Crashed e |}
  end.

(** One run of the script over the store [store] and the widget values
    [inp]. *)
Definition main (store : option session) (inp : inputs) : run :=
  match load_questions unicode_decimal files csv_path with
  | Stops notices => {| after := store; shown := notices; ended := Stopped |}
  | Raises e => {| after := store; shown := []; ended := Crashed e |}
  | Returns questions =>
    let total := Z.of_nat (length questions) in
    let ss := default fresh_session store in
    if (page ss =? 0)%Z then start_page ss inp
    else if (1 <=? page ss)%Z && (page ss <=? total)%Z then
      match questions !! Z.to_nat (page ss - 1) with
      | Some q => question_page q ss inp
      | None => {| after := Some ss; shown := []; ended := Crashed IndexError |}
      end
    else if (total <? page ss)%Z then result_page questions ss inp
    else {| after := Some ss; shown := []; ended := Returned |}
  end.
End App.

(** ** The extraction of a row, as the specification words it

    "Look up by cleaned name, default to empty string if missing or cell is
    None/absent, then trim surrounding whitespace"; the choices are "the
    ordered triple [choice1, choice2, choice3]".  These definitions follow
    those words over the header and the cells of a line, with no dict in
    between; of two columns of one name the later one counts. *)

Fixpoint lookup_last {K V : Type} `{EqDecision K} (k : K) (kvs : list (K * V)) : option V :=
  match kvs with
  | [] => None
  | (k', v) :: rest =>
    match lookup_last k rest with
    | Some v' => Some v'
    | None => if decide (k' = k) then Some v else None
    end
  end.

(** Each column name with the cell under it, if the line has one. *)
Fixpoint cells_under (names rec : list pystr) : list (pystr * option pystr) :=
  match names, rec with
  | [], _ => []
  | name :: names', [] => (name, None) :: cells_under names' []
  | name :: names', c :: rec' => (name, Some c) :: cells_under names' rec'
  end.

Definition spec_field (fieldnames rec : list pystr) (key : pystr) : pystr :=
  strip (match lookup_last key (cells_under (clean_name <$> fieldnames) rec) with
         | Some (Some s) => s
         | _ => []
         end).

Definition spec_question (fieldnames rec : list pystr) : question :=
  {| q_id := spec_field fieldnames rec K_ID;
     q_question := spec_field fieldnames rec K_QUESTION;
     q_type := spec_field fieldnames rec K_TYPE;
     q_image := spec_field fieldnames rec K_IMAGE;
     q_choices := [spec_field fieldnames rec K_CHOICE1;
                   spec_field fieldnames rec K_CHOICE2;
                   spec_field fieldnames rec K_CHOICE3];
     q_answer := spec_field fieldnames rec K_ANSWER |}.

Definition cell_of (c : option pystr) : cell :=
  match c with
  | Some s => CStr s
  | None => CNone
  end.

(** ** The order of the loaded questions, as the specification words it *)

Section Order.
Variable unicode_decimal : N → option N.

(** "Ids that fail integer parsing appear after all valid-integer ids". *)
Definition unparsable_ids_last (out : list question) : Prop :=
  ∀ i j u v n,
    out !! i = Some u → out !! j = Some v →
    py_int unicode_decimal (q_id u) = None → py_int unicode_decimal (q_id v) = Some n →
    (j < i)%nat.

(** The same, for the valid ids below the sentinel only. *)
Definition unparsable_ids_after_small (out : list question) : Prop :=
  ∀ i j u v n,
    out !! i = Some u → out !! j = Some v →
    py_int unicode_decimal (q_id u) = None → py_int unicode_decimal (q_id v) = Some n →
    (n < SENTINEL)%Z →
    (j < i)%nat.

Definition unparsable (q : question) : bool :=
  bool_decide (py_int unicode_decimal (q_id q) = None).
End Order.

(** ** Submissions, as the specification words them

    A multiple-choice submission must have an option selected, and a
    subjective one must not be blank once trimmed. *)

Definition no_option_selected (q : question) (answer : option pystr) : Prop :=
  strip (q_type q) = TYPE_CHOICE ∧ falsy answer = true.

Definition blank_subjective (q : question) (answer : option pystr) : Prop :=
  strip (q_type q) = TYPE_SUBJECTIVE ∧ strip (or_empty answer) = [].

Definition invalid_submission (q : question) (answer : option pystr) : Prop :=
  no_option_selected q answer ∨ blank_subjective q answer.

(** ** Files that the reader reads through

    The lines as the reader gets them from the buffer: each one closed by
    "\n", but the last. *)
Fixpoint close_lines (lines : list pystr) : list pystr :=
  match lines with
  | [] => []
  | [ln] => [ln]
  | ln :: rest => (ln ++ [LF]) :: close_lines rest
  end.

(** The states of the automaton inside a quoted field. *)
Definition quoted (st : ParserState) : bool :=
  match st with
  | IN_QUOTED_FIELD | QUOTE_IN_QUOTED_FIELD => true
  | _ => false
  end.

(** Two bounds on the lines given to the reader, under each of which no
    field can pass [FIELD_LIMIT]: the joined lines are no longer than the
    limit; or no line has a double quote, so that no field runs over the end
    of a line, and every line is shorter than the limit. *)
Definition short_text (lines : list pystr) : Prop :=
  N.of_nat (length (join_lines lines)) ≤ FIELD_LIMIT.

Definition short_unquoted_lines (lines : list pystr) : Prop :=
  Forall (λ ln, (QUOTECHAR ∉ ln) ∧ N.of_nat (length ln) < FIELD_LIMIT) lines.

Definition within_limit (text : pystr) : Prop :=
  short_text (usable_lines text) ∨ short_unquoted_lines (usable_lines text).

(** The page number of a store; a store not yet set up is on the start
    page. *)
Definition page_of (store : option session) : Z := page (default fresh_session store).

(** ** Concrete instances

    The tables of the interpreter restricted to ASCII, and a directory that
    holds one file. *)

Definition no_unicode_digits : N → option N := λ _, None.

Definition CSV_NAME : pystr := Eval vm_compute in py "mz_test.csv".

Definition one_file (text : pystr) : pystr → file :=
  λ p, if bool_decide (p = CSV_NAME) then Readable text else Absent.

(** A file given by its lines. *)
Definition text_of_lines (lines : list string) : pystr := join_lines (py <$> lines).

Definition HEADER : string := "id,question,type,image,choice1,choice2,choice3,answer".

(** Three questions, as in the end-to-end example of the specification. *)
Definition QUIZ_CSV : pystr := Eval vm_compute in text_of_lines
  [HEADER;
   "1,first,주관식,,,,,a";
   "2,second,객관식,,a,b,c,b";
   "3,third,주관식,,,,,c"].

(** An id above the sentinel before an id that is no number. *)
Definition BIG_ID_CSV : pystr := Eval vm_compute in text_of_lines
  [HEADER;
   "2000000000,big,주관식,,,,,x";
   "abc,odd,주관식,,,,,y"].

(** Ids out of order, two of them no numbers. *)
Definition MIXED_ID_CSV : pystr := Eval vm_compute in text_of_lines
  [HEADER;
   "3,three,주관식,,,,,x";
   "x,odd one,주관식,,,,,y";
   "1,one,주관식,,,,,z";
   ",odd two,주관식,,,,,w";
   "2,two,주관식,,,,,v"].

(** One question whose id is no number. *)
Definition ODD_ID_CSV : pystr := Eval vm_compute in text_of_lines
  [HEADER;
   "abc,only,주관식,,,,,a"].

(** A header without the choice columns, a blank line, a short line and a
    line with padded cells. *)
Definition SHORT_ROWS_CSV : pystr := Eval vm_compute in text_of_lines
  ["id,question,type,answer";
   "   ";
   "2,second";
   "1,  first  , 주관식 ,  a "].

(** A row whose second cell has one character more than the reader takes
    in a field, and no further cell. *)
Definition HEADER_LINE : pystr := Eval vm_compute in py HEADER.
Definition ROW_START : pystr := Eval vm_compute in py "1,".
Definition LONG_CELL : pystr := replicate (N.to_nat (FIELD_LIMIT + 1)) 0x61.
Definition LONG_CELL_CSV : pystr := join_lines [HEADER_LINE; ROW_START ++ LONG_CELL].

(** Widget values: nothing pressed, the start button with a name typed, the
    form submitted with an answer, the restart button. *)
Definition idle : inputs :=
  {| typed_name := []; start_pressed := false; form_answer := None;
     form_submitted := false; restart_pressed := false |}.
Definition press_start (name : pystr) : inputs :=
  {| typed_name := name; start_pressed := true; form_answer := None;
     form_submitted := false; restart_pressed := false |}.
Definition submit (answer : option pystr) : inputs :=
  {| typed_name := []; start_pressed := false; form_answer := answer;
     form_submitted := true; restart_pressed := false |}.
Definition press_restart : inputs :=
  {| typed_name := []; start_pressed := false; form_answer := None;
     form_submitted := false; restart_pressed := true |}.

(** The script over one file, with the tables restricted to ASCII, and the
    store after a series of runs from an empty store. *)
Definition main_on (text : pystr) : option session → inputs → run :=
  main ascii_lower no_unicode_digits (one_file text) CSV_NAME.

Definition store_after (text : pystr) (inps : list inputs) : option session :=
  foldl (λ store inp, after (main_on text store inp)) None inps.

(** ** Further definitions for the properties of the whole script *)

(** The four tiers, lowest first. *)
Definition TIERS : list (pystr * pystr) := [TIER1; TIER2; TIER3; TIER4].

(** The rows of a result table that are marked right. *)
Definition marked_right (rows : list result_row) : list result_row :=
  List.filter (λ row, bool_decide (r_mark row = MARK_O)) rows.

Section Rows.
Variable lower : pystr → pystr.
Variable unicode_decimal : N → option N.

(** The row that the loop of the result page appends for a question. *)
Definition row_for (answers : gmap pystr pystr) (q : question) (row : result_row) : Prop :=
  py_int unicode_decimal (q_id q) = Some (r_number row)
  ∧ r_question row = q_question q
  ∧ r_mine row = default [] (answers !! q_id q)
  ∧ r_answer row = q_answer q
  ∧ r_mark row = (if judge lower (Some (default [] (answers !! q_id q)))
                       (Some (q_answer q)) (Some (q_type q))
                  then MARK_O else MARK_X).
End Rows.

(** The options of the radio of a question page:
    [[c for c in (q.get("choices") or []) if c]]. *)
Definition radio_options (q : question) : list pystr :=
  List.filter (λ c, negb (bool_decide (c = []))) (q_choices q).

(** What the answer widget of the form can return: for the type "객관식" a
    radio built with [index=None], which returns [None] or one of its
    options; for any other type a text box, which returns a text. *)
Definition widget_returns (q : question) (answer : option pystr) : Prop :=
  if bool_decide (strip (q_type q) = TYPE_CHOICE)
  then answer = None ∨ ∃ c, c ∈ radio_options q ∧ answer = Some c
  else is_Some answer.

Section Runs.
Variable lower : pystr → pystr.
Variable unicode_decimal : N → option N.
Variable files : pystr → file.
Variable csv_path : pystr.

(** The store after a series of runs of the script, each run starting from
    the store the run before left. *)
Definition run_all (store : option session) (inps : list inputs) : option session :=
  foldl (λ store inp, after (main lower unicode_decimal files csv_path store inp)) store inps.
End Runs.

(** The ids of the questions before the page [p]. *)
Definition passed_ids (questions : list question) (p : Z) : list pystr :=
  q_id <$> take (Z.to_nat (p - 1)) questions.

(** The answers recorded by submitting [given] to [questions] in order. *)
Definition record_all (questions : list question) (given : list (option pystr))
    (answers : gmap pystr pystr) : gmap pystr pystr :=
  foldl (λ m qa, <[q_id qa.1 := strip (or_empty qa.2)]> m) answers (zip questions given).

(** A store is in order for a list of questions when its page lies between
    0 and the page of the result, and every recorded answer belongs to a
    question before the page. *)
Definition session_in_order (questions : list question) (store : option session) : Prop :=
  (0 ≤ page_of store ≤ Z.of_nat (length questions) + 1)%Z
  ∧ ∀ k, is_Some (answers (default fresh_session store) !! k) →
         k ∈ passed_ids questions (page_of store).

(** The number of the questions whose submission [judge] finds right. *)
Definition right_answers (lower : pystr → pystr) (questions : list question)
    (given : list (option pystr)) : Z :=
  Z.of_nat (length (List.filter
                      (λ qa, judge lower qa.2 (Some (q_answer qa.1)) (Some (q_type qa.1)))
                      (zip questions given))).

(** A multiple-choice question with no choice, and a question of a type that
    the script does not know. *)
Definition ODD_FORM_CSV : pystr := Eval vm_compute in text_of_lines
  [HEADER;
   "1,stuck,객관식,,,,,a";
   "2,free,ox,,,,,o"].

(** The three questions of [QUIZ_CSV], as the loader returns them. *)
Definition QUIZ : list question :=
  [ {| q_id := py "1"; q_question := py "first"; q_type := TYPE_SUBJECTIVE;
       q_image := []; q_choices := [[]; []; []]; q_answer := py "a" |};
    {| q_id := py "2"; q_question := py "second"; q_type := TYPE_CHOICE;
       q_image := []; q_choices := [py "a"; py "b"; py "c"]; q_answer := py "b" |};
    {| q_id := py "3"; q_question := py "third"; q_type := TYPE_SUBJECTIVE;
       q_image := []; q_choices := [[]; []; []]; q_answer := py "c" |} ].
(** * Properties *)

(** ** Trimming *)

Lemma lstrip_by_all p s : Forall (λ c, p c = true) s → lstrip_by p s = [].
Proof. induction 1 as [|c s Hc _ IH]; simpl; [done|]. by rewrite Hc. Qed.

Lemma lstrip_by_app_l p l s :
  Forall (λ c, p c = true) l → lstrip_by p (l ++ s) = lstrip_by p s.
Proof. induction 1 as [|c l Hc _ IH]; simpl; [done|]. by rewrite Hc. Qed.

Lemma rstrip_by_app_r p s r :
  Forall (λ c, p c = true) r → rstrip_by p (s ++ r) = rstrip_by p s.
Proof.
  intros Hr. unfold rstrip_by. rewrite reverse_app, lstrip_by_app_l; [done|].
  by apply Forall_reverse.
Qed.

Lemma rstrip_lstrip_app_r p s r :
  Forall (λ c, p c = true) r →
  rstrip_by p (lstrip_by p (s ++ r)) = rstrip_by p (lstrip_by p s).
Proof.
  intros Hr. induction s as [|c s IH]; simpl.
  - by rewrite lstrip_by_all.
  - destruct (p c); [done|]. exact (rstrip_by_app_r p (c :: s) r Hr).
Qed.

(** White space around a text does not change what [strip] returns. *)
Lemma strip_surrounding l s r :
  Forall (λ c, is_space c = true) l → Forall (λ c, is_space c = true) r →
  strip (l ++ s ++ r) = strip s.
Proof.
  intros Hl Hr. unfold strip. rewrite lstrip_by_app_l by done.
  by apply rstrip_lstrip_app_r.
Qed.

(** ** The grader *)

Section GraderFacts.
Variable lower : pystr → pystr.
Hypothesis lower_ascii : ∀ s, is_ascii s → lower s = ascii_lower s.

Lemma judge_subjective s r :
  judge lower s r (Some TYPE_SUBJECTIVE) = true ↔
  lower (strip (or_empty s)) = lower (strip (or_empty r)).
Proof. unfold judge. rewrite bool_decide_eq_true_2 by done. apply bool_decide_eq_true. Qed.

Lemma judge_other s r t :
  t ≠ Some TYPE_SUBJECTIVE →
  judge lower s r t = true ↔ strip (or_empty s) = strip (or_empty r).
Proof.
  intros Ht. unfold judge. rewrite bool_decide_eq_false_2 by done.
  apply bool_decide_eq_true.
Qed.

Lemma judge_trims l1 s r1 l2 r r2 t :
  Forall (λ c, is_space c = true) l1 → Forall (λ c, is_space c = true) r1 →
  Forall (λ c, is_space c = true) l2 → Forall (λ c, is_space c = true) r2 →
  judge lower (Some (l1 ++ s ++ r1)) (Some (l2 ++ r ++ r2)) t = judge lower (Some s) (Some r) t.
Proof. intros. unfold judge, or_empty; simpl. by rewrite !strip_surrounding. Qed.

(** C1. [judge] trims both texts, a missing one counting as empty; for the
    type "주관식" it answers whether the trimmed texts are equal once both
    are lower-cased, and for every other type whether they are equal as
    they are.  White space around either text never changes the answer.
    "Yolo" against "yolo" is right as "주관식" and wrong as "객관식"; two
    empty texts are right as "주관식". *)
Theorem judge_spec (s r t : option pystr) :
  (judge lower None r t = judge lower (Some []) r t
   ∧ judge lower s None t = judge lower s (Some []) t)
  ∧ (∀ l1 u r1 l2 v r2,
       Forall (λ c, is_space c = true) l1 → Forall (λ c, is_space c = true) r1 →
       Forall (λ c, is_space c = true) l2 → Forall (λ c, is_space c = true) r2 →
       judge lower (Some (l1 ++ u ++ r1)) (Some (l2 ++ v ++ r2)) t
       = judge lower (Some u) (Some v) t)
  ∧ (t = Some TYPE_SUBJECTIVE →
     judge lower s r t = true ↔ lower (strip (or_empty s)) = lower (strip (or_empty r)))
  ∧ (t ≠ Some TYPE_SUBJECTIVE →
     judge lower s r t = true ↔ strip (or_empty s) = strip (or_empty r))
  ∧ judge lower (Some (py "Yolo")) (Some (py "yolo")) (Some (py "주관식")) = true
  ∧ judge lower (Some (py "Yolo")) (Some (py "yolo")) (Some (py "객관식")) = false
  ∧ judge lower (Some (py "")) (Some (py "")) (Some (py "주관식")) = true.
Proof.
  split; [done|].
  split; [intros; by apply judge_trims|].
  split; [intros ->; apply judge_subjective|].
  split; [apply judge_other|].
  split; [|split].
  - apply judge_subjective. simpl.
    rewrite !lower_ascii; [by vm_compute| |];
      vm_compute; repeat constructor.
  - by vm_compute.
  - by apply judge_subjective.
Qed.
End GraderFacts.

Lemma judge_spec_witness :
  judge ascii_lower (Some (py "  Yolo ")) (Some (py "yolo")) (Some TYPE_SUBJECTIVE) = true
  ∧ judge ascii_lower (Some (py "  Yolo ")) (Some (py "yolo")) (Some TYPE_CHOICE) = false.
Proof.
  pose proof (judge_spec ascii_lower (λ s _, eq_refl)
                (Some (py "  Yolo ")) (Some (py "yolo"))) as H.
  split.
  - destruct (H (Some TYPE_SUBJECTIVE)) as (_ & _ & Hs & _).
    apply Hs; [reflexivity|]. vm_compute. reflexivity.
  - destruct (H (Some TYPE_CHOICE)) as (_ & _ & _ & Ho & _).
    apply not_true_is_false. intros Ht. apply Ho in Ht; [|discriminate].
    vm_compute in Ht. discriminate.
Defined.

(** ** The tiers *)

Ltac tier_cases :=
  unfold result_tier;
  repeat match goal with
         | |- context [Z.leb ?a ?b] => destruct (Z.leb_spec a b); simpl
         end;
  first [reflexivity | lia].

(** C2. On scores from 0 on, [result_tier] returns the first tier up to 5,
    the second from 6 to 10, the third from 11 to 15 and the fourth from 16
    on; 5, 6, 15 and 16 fall in the first, second, third and fourth tier;
    the four messages are non-empty and pairwise distinct. *)
Theorem result_tier_spec (score : Z) :
  (0 ≤ score)%Z →
  ((score ≤ 5)%Z → result_tier score = TIER1)
  ∧ ((6 ≤ score ≤ 10)%Z → result_tier score = TIER2)
  ∧ ((11 ≤ score ≤ 15)%Z → result_tier score = TIER3)
  ∧ ((16 ≤ score)%Z → result_tier score = TIER4)
  ∧ (result_tier 5 = TIER1 ∧ result_tier 6 = TIER2
     ∧ result_tier 15 = TIER3 ∧ result_tier 16 = TIER4)
  ∧ (∀ t, t ∈ [TIER1; TIER2; TIER3; TIER4] → t.2 ≠ [])
  ∧ NoDup (snd <$> [TIER1; TIER2; TIER3; TIER4]).
Proof.
  intros _.
  split; [intros; tier_cases|].
  split; [intros; tier_cases|].
  split; [intros; tier_cases|].
  split; [intros; tier_cases|].
  split; [by repeat split|].
  split.
  - intros t Ht. repeat (apply elem_of_cons in Ht as [->|Ht]; [discriminate|]).
    by apply elem_of_nil in Ht.
  - apply (bool_decide_unpack _). by vm_compute.
Qed.

Lemma result_tier_spec_witness :
  result_tier 7 = TIER2 ∧ result_tier 0 = TIER1 ∧ result_tier 40 = TIER4.
Proof.
  split; [|split].
  - apply (result_tier_spec 7); lia.
  - apply (result_tier_spec 0); lia.
  - apply (result_tier_spec 40); lia.
Defined.

(** C10. [result_tier] is defined on every integer, and a score below 0
    falls in the first tier. *)
Theorem result_tier_negative (score : Z) :
  (score < 0)%Z → result_tier score = TIER1.
Proof. intros ?. tier_cases. Qed.

Lemma result_tier_negative_witness : result_tier (-3) = TIER1.
Proof. apply (result_tier_negative (-3)). lia. Defined.

(** ** The sort *)

Section SortFacts.
Context {A : Type} (key : A → Z).

Lemma insert_by_key_perm x l : insert_by_key key x l ≡ₚ x :: l.
Proof.
  induction l as [|y l IH]; simpl; [done|].
  destruct (key x <=? key y)%Z; [done|].
  rewrite IH. apply Permutation_swap.
Qed.

Lemma sort_by_key_perm l : sort_by_key key l ≡ₚ l.
Proof.
  induction l as [|x l IH]; simpl; [done|].
  rewrite insert_by_key_perm. by f_equiv.
Qed.

Lemma insert_by_key_sorted x l :
  StronglySorted (key_le key) l → StronglySorted (key_le key) (insert_by_key key x l).
Proof.
  induction 1 as [|y l Hl IH Hy]; simpl.
  - repeat constructor.
  - destruct (Z.leb_spec (key x) (key y)) as [Hxy|Hxy].
    + constructor; [by constructor|].
      constructor; [done|].
      eapply Forall_impl; [exact Hy|]. unfold key_le. intros; simpl in *; lia.
    + constructor; [done|].
      rewrite insert_by_key_perm. constructor; [unfold key_le; lia|done].
Qed.

Lemma sort_by_key_sorted l : StronglySorted (key_le key) (sort_by_key key l).
Proof.
  induction l as [|x l IH]; simpl; [constructor|].
  by apply insert_by_key_sorted.
Qed.

(** Inserting [x] moves it past elements of a smaller key only, so a
    selection of elements that all have one key keeps its order. *)
Lemma filter_insert_by_key (P : A → bool) k x l :
  (∀ y, P y = true → key y = k) →
  List.filter P (insert_by_key key x l) = List.filter P (x :: l).
Proof.
  intros HP. induction l as [|y l IH]; [done|].
  cbn [insert_by_key].
  destruct (Z.leb_spec (key x) (key y)) as [Hxy|Hxy]; [done|].
  cbn [List.filter] in *. rewrite IH.
  destruct (P x) eqn:Hx, (P y) eqn:Hy; try done.
  apply HP in Hx, Hy. lia.
Qed.

Lemma filter_sort_by_key (P : A → bool) k l :
  (∀ y, P y = true → key y = k) →
  List.filter P (sort_by_key key l) = List.filter P l.
Proof.
  intros HP. induction l as [|x l IH]; [done|].
  cbn [sort_by_key foldr]. rewrite (filter_insert_by_key P k) by done.
  cbn [List.filter]. fold (sort_by_key key l). by rewrite IH.
Qed.

(** The sort is stable: the elements of any one key keep their order. *)
Lemma sort_by_key_stable k l :
  List.filter (has_key key k) (sort_by_key key l) = List.filter (has_key key k) l.
Proof.
  apply (filter_sort_by_key _ k). intros y Hy. by apply Z.eqb_eq in Hy.
Qed.

Lemma filter_has_key_cons k x l :
  List.filter (has_key key k) (x :: l)
  = if (key x =? k)%Z then x :: List.filter (has_key key k) l else List.filter (has_key key k) l.
Proof. reflexivity. Qed.

Lemma sorted_heads_key x l1 y l2 :
  Forall (key_le key y) l2 →
  List.filter (has_key key (key x)) (x :: l1) = List.filter (has_key key (key x)) (y :: l2) →
  (key y ≤ key x)%Z.
Proof.
  intros Hy E. rewrite !filter_has_key_cons, Z.eqb_refl in E.
  destruct (Z.eqb_spec (key y) (key x)) as [->|Hne]; [lia|].
  assert (In x (List.filter (has_key key (key x)) l2)) as Hin by (rewrite <- E; by left).
  apply filter_In in Hin as [Hin _].
  rewrite Forall_forall in Hy. apply Hy. by apply list_elem_of_In.
Qed.

(** Two lists that are ascending by key and agree on the elements of each
    key, in order, are equal. *)
Lemma sorted_stable_unique l1 l2 :
  StronglySorted (key_le key) l1 → StronglySorted (key_le key) l2 →
  (∀ k, List.filter (has_key key k) l1 = List.filter (has_key key k) l2) →
  l1 = l2.
Proof.
  intros H1. revert l2. induction H1 as [|x l1 Hs1 IH Hx]; intros l2 H2 Heq.
  - destruct l2 as [|y l2]; [done|].
    specialize (Heq (key y)). rewrite filter_has_key_cons, Z.eqb_refl in Heq.
    discriminate.
  - destruct H2 as [|y l2 Hs2 Hy].
    { specialize (Heq (key x)). rewrite filter_has_key_cons, Z.eqb_refl in Heq.
      discriminate. }
    assert (key x = key y) as Hk.
    { apply Z.le_antisymm.
      - apply (sorted_heads_key y l2 x l1); [done|]. symmetry. apply Heq.
      - apply (sorted_heads_key x l1 y l2); [done|]. apply Heq. }
    pose proof (Heq (key x)) as E.
    rewrite !filter_has_key_cons, <- Hk, Z.eqb_refl in E. injection E as -> E.
    f_equal. apply IH; [done|]. intros k.
    specialize (Heq k). rewrite !filter_has_key_cons in Heq.
    destruct (key y =? k)%Z; [|done].
    by injection Heq.
Qed.

(** What [sort_by_key] returns is the only stable ascending arrangement
    of its input. *)
Lemma stable_sort_unique l out :
  StronglySorted (key_le key) out →
  (∀ k, List.filter (has_key key k) out = List.filter (has_key key k) l) →
  out = sort_by_key key l.
Proof.
  intros Hs Hst. apply sorted_stable_unique; [done|apply sort_by_key_sorted|].
  intros k. by rewrite sort_by_key_stable.
Qed.

Lemma sorted_lookup_le l i j x y :
  StronglySorted (key_le key) l → l !! i = Some x → l !! j = Some y → (i < j)%nat →
  (key x ≤ key y)%Z.
Proof.
  intros Hs. revert i j. induction Hs as [|z l Hs IH Hz]; intros i j Hi Hj Hij.
  - done.
  - destruct j as [|j]; [lia|]. destruct i as [|i]; simpl in *.
    + injection Hi as ->. rewrite Forall_forall in Hz. apply Hz.
      by eapply list_elem_of_lookup_2.
    + apply (IH i j); [done..|lia].
Qed.
End SortFacts.

(** ** Lines *)

Lemma linebreak_newline c : is_linebreak c = false → is_newline c = false.
Proof.
  unfold is_linebreak, is_newline, LF, CR. intros H.
  destruct (N.eqb_spec c 10) as [->|?]; [done|].
  destruct (N.eqb_spec c 13) as [->|?]; done.
Qed.

(** No line of [splitlines] holds a line boundary. *)
Lemma splitlines_from_plain s : ∀ cur,
  Forall plain cur → Forall (Forall plain) (splitlines_from cur s).
Proof.
  induction s as [s IH] using (induction_ltof1 _ length). unfold ltof in IH.
  intros cur Hcur. destruct s as [|c s']; simpl.
  - destruct cur; repeat constructor; by inversion Hcur.
  - destruct (is_linebreak c) eqn:Hc.
    + constructor; [done|].
      destruct (c =? CR); [|apply IH; simpl; [lia|constructor]].
      destruct s' as [|c2 s'']; [constructor|].
      destruct (c2 =? LF); apply IH; simpl; first [lia|constructor].
    + apply IH; [simpl; lia|].
      apply Forall_app. split; [done|]. repeat constructor.
      by apply linebreak_newline.
Qed.

Lemma strip_nil : strip [] = [].
Proof. reflexivity. Qed.

Lemma nonblank_lines_spec raw ln :
  ln ∈ nonblank_lines raw ↔ ln ∈ raw ∧ strip ln ≠ [].
Proof.
  unfold nonblank_lines. rewrite !list_elem_of_In, filter_In, negb_true_iff.
  by rewrite bool_decide_eq_false.
Qed.

Lemma join_lines_plain_or_LF lines :
  Forall (Forall plain) lines → Forall (λ c, c ≠ CR) (join_lines lines).
Proof.
  assert (∀ ln, Forall plain ln → Forall (λ c, c ≠ CR) ln) as Hln.
  { intros ln H. eapply Forall_impl; [exact H|]. intros c Hc ->. discriminate. }
  induction 1 as [|ln lines H1 H2 IH]; [constructor|].
  destruct lines as [|ln2 lines]; simpl; [by apply Hln|].
  apply Forall_app. split; [by apply Hln|]. constructor; [done|]. apply IH.
Qed.

Lemma join_lines_nil lines : join_lines lines = [] → Forall (λ ln, ln = []) lines.
Proof.
  induction lines as [|ln lines IH]; [constructor|].
  destruct lines as [|ln2 lines]; simpl.
  - intros ->. by repeat constructor.
  - intros H. by apply app_eq_nil in H as [_ ?].
Qed.

Lemma io_lines_from_reader_line s : ∀ cur,
  Forall plain cur → Forall (λ c, c ≠ CR) s →
  Forall reader_line (io_lines_from cur s).
Proof.
  induction s as [|c s IH]; intros cur Hcur Hs; simpl.
  - destruct cur as [|c0 cur]; [constructor|]. repeat constructor. exists (c0 :: cur). eauto.
  - inversion_clear Hs as [|?? Hc Hs']. destruct (N.eqb_spec c LF) as [->|Hne].
    + constructor; [exists cur; eauto|]. apply IH; [constructor|done].
    + apply IH; [|done]. apply Forall_app. split; [done|]. repeat constructor.
      unfold plain, is_newline.
      destruct (N.eqb_spec c LF), (N.eqb_spec c CR); done.
Qed.

Lemma io_lines_from_nil cur s : io_lines_from cur s = [] → cur = [] ∧ s = [].
Proof.
  revert cur. induction s as [|c s IH]; intros cur; simpl.
  - by destruct cur.
  - destruct (c =? LF); [done|]. intros H. apply IH in H as [H _].
    by apply app_eq_nil in H as [_ ?].
Qed.

(** ** The lines that the reader is given *)

Lemma io_lines_from_closed ln : ∀ cur rest,
  Forall plain ln →
  io_lines_from cur (ln ++ LF :: rest) = (cur ++ ln ++ [LF]) :: io_lines_from [] rest.
Proof.
  induction ln as [|c ln IH]; intros cur rest Hln; [done|].
  inversion_clear Hln as [|?? Hc Hln']. cbn [app io_lines_from].
  replace (c =? LF) with false.
  - rewrite IH by done. by rewrite <- app_assoc.
  - unfold plain, is_newline in Hc. by destruct (c =? LF).
Qed.

Lemma io_lines_from_open ln : ∀ cur,
  Forall plain ln → cur ++ ln ≠ [] → io_lines_from cur ln = [cur ++ ln].
Proof.
  induction ln as [|c ln IH]; intros cur Hln Hne.
  - rewrite app_nil_r in *. by destruct cur.
  - inversion_clear Hln as [|?? Hc Hln']. cbn [io_lines_from].
    replace (c =? LF) with false.
    + rewrite IH; [by rewrite <- app_assoc|done|]. by destruct cur.
    + unfold plain, is_newline in Hc. by destruct (c =? LF).
Qed.

(** The buffer gives back the lines that were joined, each closed by its
    line end but the last. *)
Lemma io_lines_join lines :
  Forall (Forall plain) lines → Forall (λ ln, ln ≠ []) lines →
  io_lines (join_lines lines) = close_lines lines.
Proof.
  unfold io_lines. induction 1 as [|ln lines Hln _ IH]; [done|].
  intros Hne. inversion_clear Hne as [|?? Hln1 Hne'].
  destruct lines as [|ln2 lines].
  - cbn [join_lines close_lines]. by rewrite io_lines_from_open.
  - change (join_lines (ln :: ln2 :: lines)) with (ln ++ LF :: join_lines (ln2 :: lines)).
    change (close_lines (ln :: ln2 :: lines)) with ((ln ++ [LF]) :: close_lines (ln2 :: lines)).
    rewrite io_lines_from_closed by done. by rewrite IH.
Qed.

Lemma concat_close_lines lines : concat (close_lines lines) = join_lines lines.
Proof.
  induction lines as [|ln [|ln2 lines] IH]; [done|by cbn; rewrite app_nil_r|].
  change (close_lines (ln :: ln2 :: lines)) with ((ln ++ [LF]) :: close_lines (ln2 :: lines)).
  change (join_lines (ln :: ln2 :: lines)) with (ln ++ LF :: join_lines (ln2 :: lines)).
  cbn [concat]. rewrite IH. by rewrite <- app_assoc.
Qed.

Lemma close_lines_reader_line lines :
  Forall (Forall plain) lines → Forall reader_line (close_lines lines).
Proof.
  induction 1 as [|ln [|ln2 lines] Hln _ IH]; [constructor| |].
  - repeat constructor. exists ln. eauto.
  - change (close_lines (ln :: ln2 :: lines)) with ((ln ++ [LF]) :: close_lines (ln2 :: lines)).
    constructor; [|done]. exists ln. eauto.
Qed.

(** ** The reader and the limit of a field *)

Lemma parse_add_char_cases r c :
  (parse_add_char r c = None ∧ FIELD_LIMIT ≤ N.of_nat (length (field r)))
  ∨ (parse_add_char r c
     = Some {| state := state r; field := field r ++ [c]; fields := fields r |}
     ∧ N.of_nat (length (field r)) < FIELD_LIMIT).
Proof.
  unfold parse_add_char. destruct (N.leb_spec FIELD_LIMIT (N.of_nat (length (field r)))).
  - by left.
  - by right.
Qed.

(** One character that ends no line: the automaton fails only on a field
    at its limit, and it neither begins to wait for a line end nor enters a
    quoted field without a quote character. *)
Lemma parse_process_char_plain r c :
  plain c → state r ≠ EAT_CRNL →
  (parse_process_char r (Some c) = None ∧ FIELD_LIMIT ≤ N.of_nat (length (field r)))
  ∨ ∃ r', parse_process_char r (Some c) = Some r'
          ∧ state r' ≠ EAT_CRNL
          ∧ (length (field r') ≤ S (length (field r)))%nat
          ∧ (c ≠ QUOTECHAR → quoted (state r) = false → quoted (state r') = false).
Proof.
  unfold plain. intros Hc Hr.
  destruct (parse_add_char_cases r c) as [[Hadd Hlen]|[Hadd Hlen]];
    unfold parse_process_char, start_field;
    destruct (state r) eqn:Hst; rewrite ?Hc, ?Hadd; try done;
    destruct (N.eqb_spec c QUOTECHAR); destruct (N.eqb_spec c DELIMITER);
    first [ by left
          | right; eexists; (split; [reflexivity|]); cbn; rewrite ?Hst, ?length_app; cbn;
            repeat split; first [done|lia|congruence] ].
Qed.

Lemma parse_process_char_LF r :
  state r ≠ EAT_CRNL →
  (parse_process_char r (Some LF) = None ∧ FIELD_LIMIT ≤ N.of_nat (length (field r)))
  ∨ ∃ r', parse_process_char r (Some LF) = Some r'
          ∧ (state r' = EAT_CRNL ∨ state r' = IN_QUOTED_FIELD)
          ∧ (length (field r') ≤ S (length (field r)))%nat
          ∧ (quoted (state r) = false → state r' = EAT_CRNL).
Proof.
  intros Hr.
  destruct (parse_add_char_cases r LF) as [[Hadd Hlen]|[Hadd Hlen]];
    unfold parse_process_char, start_field;
    destruct (state r) eqn:Hst; try done; cbn; rewrite ?Hadd;
    first [ by left
          | right; eexists; (split; [reflexivity|]); cbn; rewrite ?Hst, ?length_app; cbn;
            repeat split; first [done|lia|auto] ].
Qed.

Lemma parse_process_char_EOL r :
  ∃ r', parse_process_char r None = Some r'
        ∧ (state r' = START_RECORD ∨ state r' = IN_QUOTED_FIELD)
        ∧ (length (field r') ≤ length (field r))%nat
        ∧ (state r ≠ IN_QUOTED_FIELD → state r' = START_RECORD).
Proof.
  unfold parse_process_char, start_field.
  destruct (state r) eqn:Hst; eexists; (split; [reflexivity|]); cbn; rewrite ?Hst;
    repeat split; first [done|lia|auto].
Qed.

(** One line: the automaton fails only when a field would pass the limit,
    which takes more characters than the field had and the line has; at the
    end of the line a record is complete or a quoted field is open, and the
    latter only after a quote character. *)
Lemma parse_line_reader_line ln r :
  reader_line ln → state r ≠ EAT_CRNL →
  (parse_line r ln = None ∧ FIELD_LIMIT < N.of_nat (length (field r) + length ln))
  ∨ ∃ r', parse_line r ln = Some r'
          ∧ (state r' = START_RECORD ∨ state r' = IN_QUOTED_FIELD)
          ∧ (length (field r') ≤ length (field r) + length ln)%nat
          ∧ (QUOTECHAR ∉ ln → quoted (state r) = false → state r' = START_RECORD).
Proof.
  intros (body & Hln & Hbody). revert r ln Hln.
  induction Hbody as [|c body Hc _ IH]; intros r ln Hln Hr.
  - destruct Hln as [->| ->]; cbn [parse_line app].
    + right. destruct (parse_process_char_EOL r) as (r1 & E1 & Hst & Hlen & Hq).
      exists r1. repeat split; [done|done|cbn; lia|].
      intros _ Hquoted. apply Hq. intros E. by rewrite E in Hquoted.
    + destruct (parse_process_char_LF r Hr) as [[E Hlen]|(r1 & E1 & Hst1 & Hlen1 & Hq1)].
      * left. rewrite E. split; [done|]. cbn. lia.
      * right. rewrite E1. cbn.
        destruct (parse_process_char_EOL r1) as (r2 & E2 & Hst2 & Hlen2 & Hq2).
        exists r2. repeat split; [done|done|cbn; lia|].
        intros _ Hquoted. apply Hq2. rewrite (Hq1 Hquoted). done.
  - assert (∀ tail, (c :: body) ++ tail = c :: (body ++ tail)) as Happ by done.
    assert (∀ ln', ln = c :: ln' → (ln' = body ∨ ln' = body ++ [LF]) →
            (parse_line r ln = None ∧ FIELD_LIMIT < N.of_nat (length (field r) + length ln))
            ∨ ∃ r', parse_line r ln = Some r'
                    ∧ (state r' = START_RECORD ∨ state r' = IN_QUOTED_FIELD)
                    ∧ (length (field r') ≤ length (field r) + length ln)%nat
                    ∧ (QUOTECHAR ∉ ln → quoted (state r) = false → state r' = START_RECORD))
      as Hstep.
    { intros ln' -> Hln'. cbn [parse_line].
      destruct (parse_process_char_plain r c Hc Hr)
        as [[E Hlen]|(r1 & E1 & Hst1 & Hlen1 & Hq1)].
      - left. rewrite E. split; [done|]. cbn. lia.
      - rewrite E1. cbn.
        destruct (IH r1 ln' Hln' Hst1) as [[E Hlen]|(r2 & E2 & Hst2 & Hlen2 & Hq2)].
        + left. split; [done|]. cbn. lia.
        + right. exists r2. repeat split; [done|done|cbn; lia|].
          intros Hnotin Hquoted. apply not_elem_of_cons in Hnotin as [Hne Hnotin].
          apply Hq2; [done|]. apply Hq1; [congruence|done]. }
    destruct Hln as [->| ->].
    + apply (Hstep body); [done|by left].
    + apply (Hstep (body ++ [LF])); [done|by right].
Qed.

(** When the reader raises nothing, it yields a record from one line on. *)
Lemma read_records_yields lines : ∀ r recs,
  Forall reader_line lines →
  state r = START_RECORD ∨ state r = IN_QUOTED_FIELD →
  read_records r lines = (recs, true) →
  lines ≠ [] ∨ state r = IN_QUOTED_FIELD → recs ≠ [].
Proof.
  induction lines as [|ln lines IH]; intros r recs Hl Hr; cbn [read_records].
  - intros E [?|Hq]; [done|]. rewrite Hq, orb_true_r in E. by injection E as <-.
  - inversion_clear Hl as [|?? Hln Hl']. intros E _.
    destruct (parse_line_reader_line ln r Hln) as [[E1 _]|(r1 & E1 & Hr1 & _)].
    { destruct Hr as [-> | ->]; done. }
    { by rewrite E1 in E. }
    rewrite E1 in E. case_bool_decide as Hst.
    + destruct (read_records parse_reset lines) as [recs' ok]. by injection E as <- _.
    + destruct Hr1 as [?|Hq]; [done|]. apply (IH r1 recs Hl'); auto.
Qed.

(** The reader raises nothing over lines that, with the field it has begun,
    are no longer than the limit. *)
Lemma read_records_short lines : ∀ r,
  Forall reader_line lines →
  state r = START_RECORD ∨ state r = IN_QUOTED_FIELD →
  N.of_nat (length (field r) + length (concat lines)) ≤ FIELD_LIMIT →
  ∃ recs, read_records r lines = (recs, true).
Proof.
  induction lines as [|ln lines IH]; intros r Hl Hr Hlen; cbn [read_records].
  - destruct (_ || _); eauto.
  - inversion_clear Hl as [|?? Hln Hl']. cbn [concat] in Hlen. rewrite length_app in Hlen.
    destruct (parse_line_reader_line ln r Hln) as [[_ Hover]|(r1 & -> & Hr1 & Hlen1 & _)].
    { destruct Hr as [-> | ->]; done. }
    { lia. }
    case_bool_decide as Hst.
    + destruct (IH parse_reset Hl') as [recs ->]; [by left|cbn; lia|]. eauto.
    + apply IH; [done| |lia]. by destruct Hr1; [|right].
Qed.

(** Nor over lines without a quote character that are each no longer than
    the limit: every line is then one record. *)
Lemma read_records_unquoted lines :
  Forall reader_line lines →
  Forall (λ ln, (QUOTECHAR ∉ ln) ∧ N.of_nat (length ln) ≤ FIELD_LIMIT) lines →
  ∃ recs, read_records parse_reset lines = (recs, true).
Proof.
  induction lines as [|ln lines IH]; intros Hl Hq; [by eexists|].
  inversion_clear Hl as [|?? Hln Hl']. inversion_clear Hq as [|?? [Hnotin Hlen] Hq'].
  cbn [read_records].
  destruct (parse_line_reader_line ln parse_reset Hln) as [[_ Hover]|(r1 & -> & _ & _ & Hst)];
    [done|cbn in Hover; lia|].
  rewrite (Hst Hnotin eq_refl). rewrite bool_decide_eq_true_2 by done.
  destruct (IH Hl' Hq') as [recs ->]. eauto.
Qed.

Lemma close_lines_unquoted lines :
  short_unquoted_lines lines →
  Forall (λ ln, (QUOTECHAR ∉ ln) ∧ N.of_nat (length ln) ≤ FIELD_LIMIT) (close_lines lines).
Proof.
  unfold short_unquoted_lines.
  induction 1 as [|ln [|ln2 lines] [Hnotin Hlen] _ IH]; [constructor| |].
  - repeat constructor; [done|lia].
  - change (close_lines (ln :: ln2 :: lines)) with ((ln ++ [LF]) :: close_lines (ln2 :: lines)).
    constructor; [|done]. split.
    + rewrite not_elem_of_app, not_elem_of_cons. repeat split; [done|done|apply not_elem_of_nil].
    + rewrite length_app. cbn. lia.
Qed.

(** So the reader reads through every text within one of the two bounds. *)
Lemma csv_reader_within lines :
  Forall (Forall plain) lines →
  short_text lines ∨ short_unquoted_lines lines →
  ∃ recs, csv_reader (close_lines lines) = (recs, true).
Proof.
  intros Hplain [Hshort|Hshort]; unfold csv_reader.
  - apply read_records_short; [by apply close_lines_reader_line|by left|].
    rewrite concat_close_lines. exact Hshort.
  - apply read_records_unquoted; [by apply close_lines_reader_line|].
    by apply close_lines_unquoted.
Qed.

Lemma csv_reader_yields lines recs :
  Forall (Forall plain) lines → lines ≠ [] →
  csv_reader (close_lines lines) = (recs, true) → recs ≠ [].
Proof.
  intros Hplain Hne E.
  apply (read_records_yields (close_lines lines) parse_reset recs);
    [by apply close_lines_reader_line|by left|done|].
  left. by destruct lines as [|ln [|ln2 lines]].
Qed.
(** ** Rows *)

Lemma foldl_insert_lookup {K V X : Type} `{Countable K} (f : X → K) (g : X → V) l :
  ∀ (m0 : gmap K V) k,
  foldl (λ m x, <[f x := g x]> m) m0 l !! k
  = match lookup_last k ((λ x, (f x, g x)) <$> l) with
    | Some v => Some v
    | None => m0 !! k
    end.
Proof.
  induction l as [|x l IH]; intros m0 k; simpl; [done|].
  rewrite IH. destruct (lookup_last k _); [done|].
  destruct (decide (f x = k)) as [->|Hne].
  - by rewrite lookup_insert_eq.
  - by rewrite lookup_insert_ne.
Qed.

Lemma dict_from_short names d0 :
  dict_from d0 names [] = foldl (λ d key, <[Some key := CNone]> d) d0 names.
Proof. by destruct names. Qed.

Lemma dict_from_cons name names c rec d0 :
  dict_from d0 (name :: names) (c :: rec) = dict_from (<[Some name := CStr c]> d0) names rec.
Proof. reflexivity. Qed.

Lemma lookup_insert_name (d : gmap (option pystr) cell) name k v :
  <[Some name := v]> d !! Some k = if decide (name = k) then Some v else d !! Some k.
Proof.
  destruct (decide (name = k)) as [->|Hne].
  - by rewrite lookup_insert_eq.
  - rewrite lookup_insert_ne; [done|congruence].
Qed.

(** A row dict holds, under a column name, the cell of the last column of
    that name. *)
Lemma dict_from_lookup names : ∀ rec d0 k,
  dict_from d0 names rec !! Some k
  = match lookup_last k (cells_under names rec) with
    | Some c => Some (cell_of c)
    | None => d0 !! Some k
    end.
Proof.
  induction names as [|name names IH]; intros rec d0 k.
  - destruct rec; cbn; [done|]. by rewrite lookup_insert_ne.
  - destruct rec as [|c rec].
    + specialize (IH [] (<[Some name := CNone]> d0) k).
      rewrite dict_from_short in *. cbn [foldl cells_under lookup_last].
      rewrite IH, lookup_insert_name.
      destruct (lookup_last k _); [done|]. by destruct (decide (name = k)).
    + rewrite dict_from_cons, IH, lookup_insert_name.
      cbn [cells_under lookup_last].
      destruct (lookup_last k _); [done|]. by destruct (decide (name = k)).
Qed.

Lemma dict_of_record_lookup names rec k :
  dict_of_record names rec !! Some k = cell_of <$> lookup_last k (cells_under names rec).
Proof.
  unfold dict_of_record. rewrite dict_from_lookup. by destruct (lookup_last k _).
Qed.

Lemma fmap_pair_eta {X Y : Type} (l : list (X * Y)) : (λ x, (x.1, x.2)) <$> l = l.
Proof. induction l as [|[??] l IH]; [done|]. by rewrite fmap_cons, IH. Qed.

Lemma make_field_map_lookup fieldnames key :
  make_field_map fieldnames !! key
  = lookup_last key (zip (clean_name <$> fieldnames) fieldnames).
Proof.
  unfold make_field_map.
  rewrite (foldl_insert_lookup fst snd), fmap_pair_eta, lookup_empty.
  by destruct (lookup_last key _).
Qed.

(** The original name that the field map gives for a cleaned name leads, in
    the row dict, to the cell of the last column of that cleaned name. *)
Lemma field_lookup_core key fieldnames : ∀ rec,
  match lookup_last key (zip (clean_name <$> fieldnames) fieldnames) with
  | Some orig =>
    clean_name orig = key
    ∧ ∃ c, lookup_last key (cells_under (clean_name <$> fieldnames) rec) = Some c
           ∧ lookup_last orig (cells_under fieldnames rec) = Some c
  | None =>
    lookup_last key (cells_under (clean_name <$> fieldnames) rec) = None
    ∧ ∀ orig, clean_name orig = key →
              lookup_last orig (cells_under fieldnames rec) = None
  end.
Proof.
  induction fieldnames as [|f fieldnames IH]; intros rec; [done|].
  assert (∃ x rec', cells_under (f :: fieldnames) rec = (f, x) :: cells_under fieldnames rec'
                    ∧ cells_under (clean_name <$> f :: fieldnames) rec
                      = (clean_name f, x) :: cells_under (clean_name <$> fieldnames) rec')
    as (x & rec' & -> & ->).
  { destruct rec as [|c rec]; [by exists None, []|by exists (Some c), rec]. }
  specialize (IH rec'). cbn [fmap list_fmap zip zip_with lookup_last].
  destruct (lookup_last key (zip _ fieldnames)) as [orig|].
  - destruct IH as (Hclean & c & -> & ->). eauto.
  - destruct IH as (-> & Hnone). destruct (decide (clean_name f = key)) as [Hf|Hf].
    + split; [done|]. exists x. split; [done|].
      rewrite (Hnone f Hf). by rewrite decide_True.
    + split; [done|]. intros orig Horig. rewrite (Hnone orig Horig).
      rewrite decide_False; [done|congruence].
Qed.

(** [get] computes the field of the specification. *)
Lemma get_refines fieldnames rec key :
  clean_name key = key →
  get (make_field_map fieldnames) (dict_of_record fieldnames rec) key
  = Returns (spec_field fieldnames rec key).
Proof.
  intros Hkey. unfold get, spec_field.
  rewrite make_field_map_lookup.
  pose proof (field_lookup_core key fieldnames rec) as Hcore.
  destruct (lookup_last key (zip _ fieldnames)) as [orig|]; simpl.
  - destruct Hcore as (_ & c & -> & Horig).
    rewrite dict_of_record_lookup, Horig. by destruct c.
  - destruct Hcore as (-> & Hnone).
    by rewrite dict_of_record_lookup, (Hnone key Hkey).
Qed.

Lemma make_item_refines fieldnames rec :
  make_item (make_field_map fieldnames) (dict_of_record fieldnames rec)
  = Returns (spec_question fieldnames rec).
Proof. unfold make_item. by rewrite !get_refines. Qed.

Lemma make_items_refines fieldnames recs :
  make_items (make_field_map fieldnames) (dict_of_record fieldnames <$> recs)
  = Returns (spec_question fieldnames <$> recs).
Proof.
  induction recs as [|rec recs IH]; [done|].
  cbn [fmap list_fmap make_items]. rewrite make_item_refines. cbn.
  fold (fmap (M:=list) (dict_of_record fieldnames) recs).
  by rewrite IH.
Qed.


(** ** The loader *)

Lemma usable_lines_plain text : Forall (Forall plain) (usable_lines text).
Proof.
  unfold usable_lines. apply Forall_forall. intros ln Hln.
  apply nonblank_lines_spec in Hln as [Hln _].
  pose proof (splitlines_from_plain (universal_newlines (decode_sig text)) [] (Forall_nil_2 _)) as H.
  rewrite Forall_forall in H. by apply H.
Qed.

Lemma usable_lines_nonblank text ln : ln ∈ usable_lines text → ln ≠ [].
Proof.
  intros Hln. apply nonblank_lines_spec in Hln as [_ Hln]. by intros ->.
Qed.

(** What the reader gets from the buffer are the usable lines, each closed
    by its line end but the last. *)
Lemma io_lines_usable text :
  io_lines (join_lines (usable_lines text)) = close_lines (usable_lines text).
Proof.
  apply io_lines_join; [apply usable_lines_plain|].
  apply Forall_forall. intros ln. apply usable_lines_nonblank.
Qed.

(** Past its two checks, the loader returns or raises as the reader does:
    every row of the reader gives its question. *)
Lemma read_items_reader files csv_path text recs ok :
  files csv_path = Readable text → usable_lines text ≠ [] →
  csv_reader (io_lines (join_lines (usable_lines text))) = (recs, ok) →
  read_items files csv_path
  = match recs with
    | [] => Raises (if ok then TypeError else CsvError)
    | fieldnames :: records =>
      if ok then Returns (spec_question fieldnames <$> data_records records)
      else Raises CsvError
    end.
Proof.
  intros Hfile Hne Hcsv. unfold read_items. rewrite Hfile. fold (usable_lines text).
  destruct (usable_lines text) as [|ln lines] eqn:E; [done|].
  rewrite Hcsv. destruct recs as [|fieldnames records]; [done|].
  unfold dict_rows. rewrite make_items_refines. by destruct ok.
Qed.

Lemma read_items_cases files csv_path text :
  files csv_path = Readable text → usable_lines text ≠ [] →
  ∃ recs ok,
    csv_reader (io_lines (join_lines (usable_lines text))) = (recs, ok)
    ∧ (within_limit text → ok = true)
    ∧ if ok then
        ∃ fieldnames records,
          recs = fieldnames :: records
          ∧ read_items files csv_path
            = Returns (spec_question fieldnames <$> data_records records)
      else read_items files csv_path = Raises CsvError.
Proof.
  intros Hfile Hne.
  destruct (csv_reader (io_lines (join_lines (usable_lines text)))) as [recs ok] eqn:Hcsv.
  exists recs, ok. split; [done|].
  pose proof (read_items_reader files csv_path text recs ok Hfile Hne Hcsv) as Hitems.
  split.
  - intros Hwithin. rewrite io_lines_usable in Hcsv.
    destruct (csv_reader_within (usable_lines text) (usable_lines_plain text) Hwithin)
      as [recs' E]. congruence.
  - destruct ok.
    + rewrite io_lines_usable in Hcsv.
      pose proof (csv_reader_yields _ _ (usable_lines_plain text) Hne Hcsv) as Hrecs.
      destruct recs as [|fieldnames records]; [done|]. eauto.
    + by destruct recs.
Qed.

Lemma read_items_missing files csv_path :
  files csv_path = Absent →
  read_items files csv_path = Stops [ShowError (MSG_NOT_FOUND ++ csv_path)].
Proof. intros H. unfold read_items. by rewrite H. Qed.

Lemma read_items_unreadable files csv_path e :
  files csv_path = Unreadable e → read_items files csv_path = Raises e.
Proof. intros H. unfold read_items. by rewrite H. Qed.

Lemma read_items_empty files csv_path text :
  files csv_path = Readable text → usable_lines text = [] →
  read_items files csv_path = Stops [ShowError MSG_NO_DATA].
Proof.
  intros H E. unfold read_items. rewrite H. fold (usable_lines text). by rewrite E.
Qed.

Section LoaderFacts.
Variable unicode_decimal : N → option N.
Variable files : pystr → file.
Variable csv_path : pystr.

Local Abbreviation load := (load_questions unicode_decimal files csv_path).

Lemma load_questions_cases text :
  files csv_path = Readable text → usable_lines text ≠ [] →
  ∃ recs ok,
    csv_reader (io_lines (join_lines (usable_lines text))) = (recs, ok)
    ∧ (within_limit text → ok = true)
    ∧ if ok then
        ∃ fieldnames records,
          recs = fieldnames :: records
          ∧ read_items files csv_path
            = Returns (spec_question fieldnames <$> data_records records)
          ∧ load = Returns (sort_by_key (sort_key unicode_decimal)
                              (spec_question fieldnames <$> data_records records))
      else read_items files csv_path = Raises CsvError ∧ load = Raises CsvError.
Proof.
  intros Hfile Hne.
  destruct (read_items_cases files csv_path text Hfile Hne) as (recs & ok & Hcsv & Hok & H).
  exists recs, ok. split; [done|]. split; [done|]. destruct ok.
  - destruct H as (fieldnames & records & -> & E). exists fieldnames, records.
    split; [done|]. split; [done|]. unfold load_questions. by rewrite E.
  - split; [done|]. unfold load_questions. by rewrite H.
Qed.

Lemma load_questions_inv out :
  load = Returns out →
  ∃ items, read_items files csv_path = Returns items
           ∧ out = sort_by_key (sort_key unicode_decimal) items.
Proof.
  unfold load_questions. destruct (read_items files csv_path) as [items| |]; [|done..].
  cbn. intros [= <-]. eauto.
Qed.

(** C5, as amended.  [load_questions] shows an error and stops the run
    exactly when the file does not exist or no line is left once the blank
    lines are removed.  For any other file it returns its list, unless
    reading the file raises or the reader raises [csv.Error]; either
    exception goes on to the caller, nothing is shown, and the run crashes.
    The reader raises nothing on a text within the limit of a field.  A run
    that the loader stops ends there, with the error shown and the store as
    it was. *)
Theorem load_questions_halts :
  (files csv_path = Absent → load = Stops [ShowError (MSG_NOT_FOUND ++ csv_path)])
  ∧ (∀ text, files csv_path = Readable text → usable_lines text = [] →
       load = Stops [ShowError MSG_NO_DATA])
  ∧ ((∃ notices, load = Stops notices)
     ↔ (files csv_path = Absent
        ∨ ∃ text, files csv_path = Readable text ∧ usable_lines text = []))
  ∧ (∀ e, files csv_path = Unreadable e → load = Raises e)
  ∧ (∀ text, files csv_path = Readable text → usable_lines text ≠ [] →
       ∃ recs ok,
         csv_reader (io_lines (join_lines (usable_lines text))) = (recs, ok)
         ∧ if ok then ∃ items, load = Returns items else load = Raises CsvError)
  ∧ (∀ text, files csv_path = Readable text → usable_lines text ≠ [] →
       within_limit text → ∃ items, load = Returns items)
  ∧ (∀ lower store inp notices,
       load = Stops notices →
       main lower unicode_decimal files csv_path store inp
       = {| after := store; shown := notices; ended := Stopped |})
  ∧ (∀ lower store inp e,
       load = Raises e →
       main lower unicode_decimal files csv_path store inp
       = {| after := store; shown := []; ended := Crashed e |}).
Proof.
  assert (files csv_path = Absent → load = Stops [ShowError (MSG_NOT_FOUND ++ csv_path)])
    as Hmissing.
  { intros H. unfold load_questions. by rewrite read_items_missing. }
  assert (∀ text, files csv_path = Readable text → usable_lines text = [] →
          load = Stops [ShowError MSG_NO_DATA]) as Hempty.
  { intros text H E. unfold load_questions. by rewrite (read_items_empty _ _ text). }
  assert (∀ e, files csv_path = Unreadable e → load = Raises e) as Hunreadable.
  { intros e H. unfold load_questions. by rewrite (read_items_unreadable _ _ e). }
  assert (∀ text, files csv_path = Readable text → usable_lines text ≠ [] →
          ∃ recs ok,
            csv_reader (io_lines (join_lines (usable_lines text))) = (recs, ok)
            ∧ (within_limit text → ok = true)
            ∧ if ok then ∃ items, load = Returns items else load = Raises CsvError)
    as Hreader.
  { intros text H E. destruct (load_questions_cases text H E) as (recs & ok & Hcsv & Hok & Hl).
    exists recs, ok. split; [done|]. split; [done|]. destruct ok.
    - destruct Hl as (? & ? & _ & _ & ->). eauto.
    - by destruct Hl. }
  split; [done|]. split; [done|]. split; [|split; [done|split; [|split]]].
  - split.
    + intros [notices Hstop]. destruct (files csv_path) as [|e|text] eqn:Hfile; [by left| |].
      * by rewrite (Hunreadable e) in Hstop.
      * right. exists text. split; [done|].
        destruct (decide (usable_lines text = [])) as [|Hne]; [done|].
        destruct (Hreader text eq_refl Hne) as (recs & ok & _ & _ & Hl).
        destruct ok; [destruct Hl as [items Hl]|]; congruence.
    + intros [Hnone|(text & Hfile & E)]; eauto.
  - intros text H E. destruct (Hreader text H E) as (recs & ok & Hcsv & _ & Hl). eauto.
  - intros text H E Hwithin. destruct (Hreader text H E) as (recs & ok & _ & Hok & Hl).
    by rewrite (Hok Hwithin) in Hl.
  - split.
    + intros lower store inp notices E. unfold main. by rewrite E.
    + intros lower store inp e E. unfold main. by rewrite E.
Qed.

(** C3, as amended.  What [load_questions] returns is the list of the items
    in file order, sorted: a permutation of it, ascending by the parsed id
    with the sentinel for an id that is no number, and stable (the items of
    one key keep their file order).  So an item whose id is no number comes
    after every item whose id is a number below the sentinel, and the items
    whose ids are no numbers keep their file order. *)
Theorem load_questions_sorted out :
  load_questions unicode_decimal files csv_path = Returns out →
  ∃ items,
    read_items files csv_path = Returns items
    ∧ out ≡ₚ items
    ∧ StronglySorted (key_le (sort_key unicode_decimal)) out
    ∧ (∀ k, List.filter (has_key (sort_key unicode_decimal) k) out
            = List.filter (has_key (sort_key unicode_decimal) k) items)
    ∧ (∀ out', StronglySorted (key_le (sort_key unicode_decimal)) out' →
               (∀ k, List.filter (has_key (sort_key unicode_decimal) k) out'
                     = List.filter (has_key (sort_key unicode_decimal) k) items) →
               out' = out)
    ∧ unparsable_ids_after_small unicode_decimal out
    ∧ List.filter (unparsable unicode_decimal) out
      = List.filter (unparsable unicode_decimal) items.
Proof.
  intros Hload. destruct (load_questions_inv out Hload) as (items & Hitems & ->).
  exists items. split; [done|].
  split; [apply sort_by_key_perm|].
  split; [apply sort_by_key_sorted|].
  split; [intros k; apply sort_by_key_stable|].
  split; [intros out'; apply stable_sort_unique|].
  split.
  - intros i j u v n Hi Hj Hu Hv Hn.
    destruct (decide (j < i)%nat) as [|Hij]; [done|]. exfalso.
    destruct (decide (i = j)) as [->|Hne]; [congruence|].
    pose proof (sorted_lookup_le (sort_key unicode_decimal) _ i j u v
                  (sort_by_key_sorted _ _) Hi Hj ltac:(lia)) as Hle.
    unfold sort_key, safe_int in Hle. rewrite Hu, Hv in Hle. lia.
  - apply (filter_sort_by_key _ _ SENTINEL). intros q Hq.
    apply bool_decide_eq_true in Hq. unfold sort_key, safe_int. by rewrite Hq.
Qed.
End LoaderFacts.

Lemma load_questions_halts_witness :
  load_questions no_unicode_digits (one_file QUIZ_CSV) (py "other.csv")
  = Stops [ShowError (MSG_NOT_FOUND ++ py "other.csv")]
  ∧ load_questions no_unicode_digits (one_file (py "   ")) CSV_NAME
    = Stops [ShowError MSG_NO_DATA]
  ∧ load_questions no_unicode_digits (λ _, Unreadable UnicodeDecodeError) CSV_NAME
    = Raises UnicodeDecodeError
  ∧ (∃ items, load_questions no_unicode_digits (one_file QUIZ_CSV) CSV_NAME = Returns items)
  ∧ load_questions no_unicode_digits (one_file (py HEADER)) CSV_NAME = Returns [].
Proof.
  split; [|split; [|split; [|split; [|by vm_compute]]]].
  - apply (load_questions_halts no_unicode_digits (one_file QUIZ_CSV) (py "other.csv")).
    reflexivity.
  - apply (load_questions_halts no_unicode_digits (one_file (py "   ")) CSV_NAME)
      with (text := py "   "); reflexivity.
  - apply (load_questions_halts no_unicode_digits (λ _, Unreadable UnicodeDecodeError) CSV_NAME).
    reflexivity.
  - apply (load_questions_halts no_unicode_digits (one_file QUIZ_CSV) CSV_NAME)
      with (text := QUIZ_CSV); [reflexivity|vm_compute; discriminate|].
    left. apply N.leb_le. vm_compute. reflexivity.
Defined.

Lemma load_questions_sorted_witness :
  ∃ out,
    load_questions no_unicode_digits (one_file MIXED_ID_CSV) CSV_NAME = Returns out
    ∧ q_question <$> out = py <$> ["one"; "two"; "three"; "odd one"; "odd two"]
    ∧ unparsable_ids_after_small no_unicode_digits out.
Proof.
  eexists. split; [vm_compute; reflexivity|]. split; [vm_compute; reflexivity|].
  destruct (load_questions_sorted no_unicode_digits (one_file MIXED_ID_CSV) CSV_NAME _
              ltac:(vm_compute; reflexivity)) as (items & _ & _ & _ & _ & _ & H & _).
  exact H.
Defined.

(** C3, as stated, fails: an id above the sentinel is a valid integer, and
    the item whose id is no number comes before it. *)
Lemma unparsable_id_before_big_id :
  ∃ out,
    load_questions no_unicode_digits (one_file BIG_ID_CSV) CSV_NAME = Returns out
    ∧ q_id <$> out = py <$> ["abc"; "2000000000"]
    ∧ ¬ unparsable_ids_last no_unicode_digits out.
Proof.
  eexists. split; [vm_compute; reflexivity|]. split; [vm_compute; reflexivity|].
  intros H. specialize (H 0%nat 1%nat _ _ 2000000000%Z eq_refl eq_refl).
  vm_compute in H. specialize (H eq_refl eq_refl). lia.
Qed.

(** ** A cell above the limit of a field *)

Lemma elem_of_lstrip_by p c s : c ∈ s → p c = false → c ∈ lstrip_by p s.
Proof.
  intros Hin Hc. induction s as [|x s IH]; [done|]. cbn [lstrip_by].
  destruct (p x) eqn:Hx; [|done].
  apply elem_of_cons in Hin as [->|Hin]; [congruence|by apply IH].
Qed.

(** A text with a character that is no white space is not blank. *)
Lemma strip_nonblank c s : c ∈ s → is_space c = false → strip s ≠ [].
Proof.
  intros Hin Hc. unfold strip, rstrip_by.
  assert (c ∈ reverse (lstrip_by is_space (reverse (lstrip_by is_space s)))) as H.
  { apply elem_of_reverse, elem_of_lstrip_by; [|done].
    apply elem_of_reverse, elem_of_lstrip_by; done. }
  intros E. rewrite E in H. by apply not_elem_of_nil in H.
Qed.

Lemma universal_newlines_id s : Forall (λ c, c ≠ CR) s → universal_newlines s = s.
Proof.
  induction 1 as [|c s Hc _ IH]; [done|]. cbn [universal_newlines].
  destruct (N.eqb_spec c CR); [done|]. by rewrite IH.
Qed.

Lemma splitlines_from_closed ln : ∀ cur rest,
  Forall (λ c, is_linebreak c = false) ln →
  splitlines_from cur (ln ++ LF :: rest) = (cur ++ ln) :: splitlines_from [] rest.
Proof.
  induction ln as [|c ln IH]; intros cur rest Hln.
  - by rewrite app_nil_r.
  - inversion_clear Hln as [|?? Hc Hln']. cbn [app splitlines_from]. rewrite Hc.
    rewrite IH by done. by rewrite <- app_assoc.
Qed.

Lemma splitlines_from_open ln : ∀ cur,
  Forall (λ c, is_linebreak c = false) ln →
  splitlines_from cur ln = match cur ++ ln with [] => [] | _ => [cur ++ ln] end.
Proof.
  induction ln as [|c ln IH]; intros cur Hln.
  - rewrite app_nil_r. by destruct cur.
  - inversion_clear Hln as [|?? Hc Hln']. cbn [splitlines_from]. rewrite Hc.
    rewrite IH by done. by rewrite <- app_assoc.
Qed.

(** Lines that are joined and split again are the same lines, up to an
    empty last line, which is blank. *)
Lemma nonblank_splitlines_join lines :
  Forall (Forall (λ c, is_linebreak c = false)) lines →
  nonblank_lines (splitlines (join_lines lines)) = nonblank_lines lines.
Proof.
  unfold splitlines. induction 1 as [|ln [|ln2 lines] Hln _ IH]; [done| |].
  - cbn [join_lines]. rewrite splitlines_from_open by done. by destruct ln.
  - change (join_lines (ln :: ln2 :: lines)) with (ln ++ LF :: join_lines (ln2 :: lines)).
    rewrite splitlines_from_closed by done. unfold nonblank_lines in *.
    cbn [List.filter app]. by rewrite IH.
Qed.

(** The usable lines of a text joined from lines without line boundaries,
    which does not begin with a byte-order mark, are the lines that are not
    blank. *)
Lemma usable_lines_join lines :
  Forall (Forall (λ c, is_linebreak c = false)) lines →
  head (join_lines lines) ≠ Some BOM →
  usable_lines (join_lines lines) = nonblank_lines lines.
Proof.
  intros Hlines Hhead. unfold usable_lines.
  assert (decode_sig (join_lines lines) = join_lines lines) as ->.
  { destruct (join_lines lines) as [|c s]; [done|]. cbn [decode_sig].
    destruct (N.eqb_spec c BOM) as [->|]; done. }
  rewrite universal_newlines_id; [by apply nonblank_splitlines_join|].
  apply join_lines_plain_or_LF. eapply Forall_impl; [exact Hlines|].
  intros ln Hln. eapply Forall_impl; [exact Hln|]. apply linebreak_newline.
Qed.

(** A field cannot take in more characters than the limit. *)
Lemma parse_line_over_limit cell : ∀ r,
  Forall (λ c, is_newline c = false ∧ c ≠ QUOTECHAR ∧ c ≠ DELIMITER) cell →
  state r = START_FIELD ∨ state r = IN_FIELD →
  N.of_nat (length (field r)) ≤ FIELD_LIMIT →
  FIELD_LIMIT < N.of_nat (length (field r) + length cell) →
  parse_line r cell = None.
Proof.
  induction cell as [|c cell IH]; intros r Hcell Hr Hlen Hover; [cbn in Hover; lia|].
  inversion_clear Hcell as [|?? (Hnl & Hq & Hd) Hcell']. cbn [parse_line].
  assert (parse_process_char r (Some c) = parse_add_char (set_state IN_FIELD r) c) as ->.
  { apply N.eqb_neq in Hq, Hd. unfold parse_process_char, start_field, parse_add_char.
    destruct Hr as [-> | ->]; rewrite Hnl, ?Hq, Hd; cbn; by destruct (_ <=? _). }
  destruct (parse_add_char_cases (set_state IN_FIELD r) c) as [[-> _]|[-> Hlt]]; [done|].
  cbn in Hlt. cbn [mbind option_bind]. apply IH; [done|by right|..]; cbn;
    rewrite ?length_app; cbn in *; lia.
Qed.

(** A file whose second line has a cell above the limit: the reader yields
    the header and raises [csv.Error] on the second line, and so does the
    loader. *)
Lemma long_cell_raises unicode_decimal cell :
  Forall (λ c, is_newline c = false ∧ c ≠ QUOTECHAR ∧ c ≠ DELIMITER) cell →
  Forall (λ c, is_linebreak c = false) cell →
  FIELD_LIMIT < N.of_nat (length cell) →
  usable_lines (join_lines [HEADER_LINE; ROW_START ++ cell])
  = [HEADER_LINE; ROW_START ++ cell]
  ∧ load_questions unicode_decimal
      (one_file (join_lines [HEADER_LINE; ROW_START ++ cell])) CSV_NAME
    = Raises CsvError.
Proof.
  intros Hcell Hlb Hover.
  assert (usable_lines (join_lines [HEADER_LINE; ROW_START ++ cell])
          = [HEADER_LINE; ROW_START ++ cell]) as Husable.
  { rewrite usable_lines_join.
    - unfold nonblank_lines. cbn [List.filter].
      rewrite !bool_decide_eq_false_2; [done| |].
      + apply (strip_nonblank 0x31); [|done]. apply elem_of_app. left. by left.
      + by vm_compute.
    - constructor; [|constructor; [|constructor]].
      + unfold HEADER_LINE. repeat constructor.
      + apply Forall_app. split; [|done]. unfold ROW_START. repeat constructor.
    - done. }
  split; [done|].
  assert (csv_reader (io_lines (join_lines (usable_lines
            (join_lines [HEADER_LINE; ROW_START ++ cell]))))
          = ([py <$> ["id"; "question"; "type"; "image"; "choice1"; "choice2"; "choice3";
                      "answer"]], false)) as Hcsv.
  { rewrite io_lines_usable, Husable. unfold csv_reader.
    change (close_lines [HEADER_LINE; ROW_START ++ cell])
      with [HEADER_LINE ++ [LF]; ROW_START ++ cell].
    cbn [read_records].
    replace (parse_line parse_reset (HEADER_LINE ++ [LF]))
      with (Some {| state := START_RECORD; field := [];
                    fields := py <$> ["id"; "question"; "type"; "image"; "choice1"; "choice2";
                                      "choice3"; "answer"] |})
      by (by vm_compute).
    rewrite bool_decide_eq_true_2 by done. cbn [fields].
    replace (parse_line parse_reset (ROW_START ++ cell)) with (@None ReaderObj); [done|].
    symmetry. change (ROW_START ++ cell) with (0x31 :: 0x2C :: cell). cbn [parse_line].
    replace (parse_process_char parse_reset (Some 0x31))
      with (Some {| state := IN_FIELD; field := [0x31]; fields := [] |}) by (by vm_compute).
    cbn [mbind option_bind].
    replace (parse_process_char {| state := IN_FIELD; field := [0x31]; fields := [] |}
               (Some 0x2C))
      with (Some {| state := START_FIELD; field := []; fields := [[0x31]] |})
      by (by vm_compute).
    cbn [mbind option_bind]. apply parse_line_over_limit; [done|by left|done|done]. }
  unfold load_questions.
  rewrite (read_items_reader (one_file (join_lines [HEADER_LINE; ROW_START ++ cell]))
             CSV_NAME _ _ _ eq_refl ltac:(by rewrite Husable) Hcsv).
  done.
Qed.

(** C5, as stated, fails: the file exists and both its lines are usable,
    yet the loader does not return; it raises [csv.Error], no error is
    shown, and the run crashes. *)
Lemma over_limit_cell_raises :
  one_file LONG_CELL_CSV CSV_NAME = Readable LONG_CELL_CSV
  ∧ usable_lines LONG_CELL_CSV = [HEADER_LINE; ROW_START ++ LONG_CELL]
  ∧ load_questions no_unicode_digits (one_file LONG_CELL_CSV) CSV_NAME = Raises CsvError
  ∧ ¬ (∃ items,
         load_questions no_unicode_digits (one_file LONG_CELL_CSV) CSV_NAME = Returns items)
  ∧ main ascii_lower no_unicode_digits (one_file LONG_CELL_CSV) CSV_NAME None idle
    = {| after := None; shown := []; ended := Crashed CsvError |}.
Proof.
  destruct (long_cell_raises no_unicode_digits LONG_CELL) as [Husable Hload].
  { apply Forall_replicate. repeat split; done. }
  { apply Forall_replicate. reflexivity. }
  { unfold LONG_CELL. rewrite length_replicate. lia. }
  fold LONG_CELL_CSV in Husable, Hload.
  split; [reflexivity|]. split; [exact Husable|]. split; [exact Hload|]. split.
  - intros [items E]. rewrite Hload in E. discriminate.
  - unfold main. rewrite Hload. reflexivity.
Qed.

(** ** The extraction of a row *)

Lemma lookup_last_cells_None names key : ∀ rec,
  key ∉ names → lookup_last key (cells_under names rec) = None.
Proof.
  induction names as [|name names IH]; intros rec Hkey; [done|].
  apply not_elem_of_cons in Hkey as [Hne Hkey].
  destruct rec as [|c rec]; cbn [cells_under lookup_last];
    rewrite IH by done; by rewrite decide_False.
Qed.

Lemma lookup_last_cells_Some names key : ∀ rec i,
  names !! i = Some key → (∀ j, (i < j)%nat → names !! j ≠ Some key) →
  lookup_last key (cells_under names rec) = Some (rec !! i).
Proof.
  induction names as [|name names IH]; intros rec i Hi Hlast; [done|].
  destruct i as [|i].
  - injection Hi as ->.
    assert (key ∉ names) as Hnot.
    { intros Hin. apply list_elem_of_lookup in Hin as [j Hj].
      by apply (Hlast (S j)); [lia|]. }
    destruct rec as [|c rec]; cbn [cells_under lookup_last];
      rewrite lookup_last_cells_None by done; by rewrite decide_True.
  - assert (∀ j, (i < j)%nat → names !! j ≠ Some key) as Hlast'.
    { intros j Hj. apply (Hlast (S j)). lia. }
    destruct rec as [|c rec]; cbn [cells_under lookup_last].
    + by rewrite (IH [] i).
    + by rewrite (IH rec i).
Qed.

(** A column that the header does not have gives the empty text. *)
Lemma spec_field_missing_column fieldnames rec key :
  key ∉ clean_name <$> fieldnames → spec_field fieldnames rec key = [].
Proof. intros H. unfold spec_field. by rewrite lookup_last_cells_None. Qed.

(** A column that the header has gives the trimmed cell of the line under
    its last occurrence, and the empty text when the line has no such
    cell. *)
Lemma spec_field_column fieldnames rec key i :
  (clean_name <$> fieldnames) !! i = Some key →
  (∀ j, (i < j)%nat → (clean_name <$> fieldnames) !! j ≠ Some key) →
  spec_field fieldnames rec key = strip (default [] (rec !! i)).
Proof.
  intros Hi Hlast. unfold spec_field.
  rewrite (lookup_last_cells_Some _ _ _ i) by done. by destruct (rec !! i).
Qed.

(** A source that loads is a readable file with a usable line that the
    reader has read through. *)
Lemma load_questions_loadable unicode_decimal files csv_path out :
  load_questions unicode_decimal files csv_path = Returns out →
  ∃ text fieldnames records,
    files csv_path = Readable text
    ∧ usable_lines text ≠ []
    ∧ csv_reader (io_lines (join_lines (usable_lines text))) = (fieldnames :: records, true)
    ∧ out = sort_by_key (sort_key unicode_decimal)
              (spec_question fieldnames <$> data_records records).
Proof.
  intros Hload.
  destruct (load_questions_inv unicode_decimal files csv_path out Hload) as (items & Hitems & ->).
  destruct (files csv_path) as [|e|text] eqn:Hfile.
  - by rewrite read_items_missing in Hitems.
  - by rewrite (read_items_unreadable _ _ e) in Hitems.
  - destruct (decide (usable_lines text = [])) as [E|Hne].
    { by rewrite (read_items_empty _ _ text) in Hitems. }
    destruct (read_items_cases files csv_path text Hfile Hne) as (recs & ok & Hcsv & _ & H).
    destruct ok; [|congruence].
    destruct H as (fieldnames & records & -> & E). exists text, fieldnames, records.
    split; [done|]. split; [done|]. split; [done|]. congruence.
Qed.

(** C9. The loader fails on no row, whatever columns or cells the row
    lacks: every record that the reader yields gives one question, each
    field of which is the trimmed cell of its column; a column that the
    header lacks and a cell that the line lacks give the empty text; the
    choices are the fields choice1, choice2, choice3 in this order.  A
    source that loads is a readable file that the reader has read through,
    and the loader returns the questions of its records, sorted; the reader
    reads through every file within the limit of a field, and its own
    [csv.Error] is the one failure left past the header. *)
Theorem load_rows_never_fail unicode_decimal files csv_path :
  (∀ out,
     load_questions unicode_decimal files csv_path = Returns out →
     ∃ text fieldnames records,
       files csv_path = Readable text
       ∧ usable_lines text ≠ []
       ∧ csv_reader (io_lines (join_lines (usable_lines text)))
         = (fieldnames :: records, true)
       ∧ out = sort_by_key (sort_key unicode_decimal)
                 (spec_question fieldnames <$> data_records records))
  ∧ (∀ text fieldnames records ok,
       files csv_path = Readable text → usable_lines text ≠ [] →
       csv_reader (io_lines (join_lines (usable_lines text))) = (fieldnames :: records, ok) →
       make_items (make_field_map fieldnames) (dict_rows fieldnames records)
       = Returns (spec_question fieldnames <$> data_records records)
       ∧ (∀ row, row ∈ dict_rows fieldnames records →
            ∀ key, clean_name key = key →
              ∃ v, get (make_field_map fieldnames) row key = Returns v)
       ∧ (ok = true →
            read_items files csv_path
            = Returns (spec_question fieldnames <$> data_records records)
            ∧ load_questions unicode_decimal files csv_path
              = Returns (sort_by_key (sort_key unicode_decimal)
                           (spec_question fieldnames <$> data_records records)))
       ∧ (ok = false →
            read_items files csv_path = Raises CsvError
            ∧ load_questions unicode_decimal files csv_path = Raises CsvError)
       ∧ (within_limit text → ok = true))
  ∧ ∀ fieldnames rec key,
      make_item (make_field_map fieldnames) (dict_of_record fieldnames rec)
      = Returns (spec_question fieldnames rec)
      ∧ q_choices (spec_question fieldnames rec)
        = [spec_field fieldnames rec K_CHOICE1; spec_field fieldnames rec K_CHOICE2;
           spec_field fieldnames rec K_CHOICE3]
      ∧ (key ∉ clean_name <$> fieldnames → spec_field fieldnames rec key = [])
      ∧ (∀ i, (clean_name <$> fieldnames) !! i = Some key →
              (∀ j, (i < j)%nat → (clean_name <$> fieldnames) !! j ≠ Some key) →
              spec_field fieldnames rec key = strip (default [] (rec !! i))
              ∧ (rec !! i = None → spec_field fieldnames rec key = [])).
Proof.
  split; [apply load_questions_loadable|]. split.
  - intros text fieldnames records ok Hfile Hne Hcsv.
    pose proof (read_items_reader files csv_path text _ _ Hfile Hne Hcsv) as Hitems.
    split; [unfold dict_rows; apply make_items_refines|].
    split.
    { intros row Hrow key Hkey. unfold dict_rows in Hrow.
      apply list_elem_of_fmap in Hrow as (rec & -> & _).
      rewrite get_refines by done. eauto. }
    split.
    { intros ->. split; [done|]. unfold load_questions. by rewrite Hitems. }
    split.
    { intros ->. split; [done|]. unfold load_questions. by rewrite Hitems. }
    intros Hwithin.
    destruct (read_items_cases files csv_path text Hfile Hne) as (recs' & ok' & E & Hok & _).
    rewrite Hcsv in E. injection E as _ <-. by apply Hok.
  - intros fieldnames rec key. split; [apply make_item_refines|]. split; [done|].
    split; [apply spec_field_missing_column|].
    intros i Hi Hlast. rewrite (spec_field_column _ _ _ i) by done.
    split; [done|]. by intros ->.
Qed.

Lemma load_rows_never_fail_witness :
  ∃ out,
    load_questions no_unicode_digits (one_file SHORT_ROWS_CSV) CSV_NAME = Returns out
    ∧ out = [ {| q_id := py "1"; q_question := py "first"; q_type := py "주관식";
                 q_image := []; q_choices := [[]; []; []]; q_answer := py "a" |};
              {| q_id := py "2"; q_question := py "second"; q_type := [];
                 q_image := []; q_choices := [[]; []; []]; q_answer := [] |} ].
Proof.
  destruct (load_rows_never_fail no_unicode_digits (one_file SHORT_ROWS_CSV) CSV_NAME)
    as (_ & Hrows & _).
  destruct (Hrows SHORT_ROWS_CSV _ _ true eq_refl ltac:(vm_compute; discriminate)
              ltac:(vm_compute; reflexivity))
    as (_ & _ & Hload & _).
  destruct (Hload eq_refl) as [_ Hl].
  eexists. split; [exact Hl|]. vm_compute. reflexivity.
Defined.

(** ** The pages *)

Section AppFacts.
Variable lower : pystr → pystr.
Variable unicode_decimal : N → option N.
Variable files : pystr → file.
Variable csv_path : pystr.

Local Abbreviation main' := (main lower unicode_decimal files csv_path).
Local Abbreviation load := (load_questions unicode_decimal files csv_path).

Lemma main_start_page questions ss inp :
  load = Returns questions → page ss = 0%Z →
  main' (Some ss) inp = start_page ss inp.
Proof.
  intros Hload Hp. unfold main. rewrite Hload. simpl. by rewrite Hp.
Qed.

Lemma main_question_page questions ss inp :
  load = Returns questions →
  (1 ≤ page ss ≤ Z.of_nat (length questions))%Z →
  ∃ q, questions !! Z.to_nat (page ss - 1) = Some q
       ∧ main' (Some ss) inp = question_page q ss inp.
Proof.
  intros Hload [H1 H2].
  destruct (questions !! Z.to_nat (page ss - 1)) as [q|] eqn:Hq.
  - exists q. split; [done|]. unfold main. rewrite Hload. simpl.
    destruct (Z.eqb_spec (page ss) 0); [lia|].
    destruct (Z.leb_spec 1 (page ss)); [|lia].
    destruct (Z.leb_spec (page ss) (Z.of_nat (length questions))); [|lia].
    simpl. by rewrite Hq.
  - apply lookup_ge_None in Hq. lia.
Qed.

Lemma main_result_page questions ss inp :
  load = Returns questions →
  (Z.of_nat (length questions) < page ss)%Z →
  main' (Some ss) inp = result_page lower unicode_decimal questions ss inp.
Proof.
  intros Hload Hp. unfold main. rewrite Hload. simpl.
  destruct (Z.eqb_spec (page ss) 0); [lia|].
  destruct (Z.leb_spec (page ss) (Z.of_nat (length questions))); [lia|].
  rewrite andb_false_r.
  destruct (Z.ltb_spec (Z.of_nat (length questions)) (page ss)); [done|lia].
Qed.

(** The loop of the result page raises on the first id that is no number. *)
Lemma grade_raises questions : ∀ answers correct rows q,
  q ∈ questions → py_int unicode_decimal (q_id q) = None →
  grade lower unicode_decimal questions answers correct rows = Raises ValueError.
Proof.
  induction questions as [|q0 questions IH]; intros answers correct rows q Hq Hid.
  - by apply elem_of_nil in Hq.
  - cbn [grade]. apply elem_of_cons in Hq as [<-|Hq].
    + by rewrite Hid.
    + destruct (py_int unicode_decimal (q_id q0)); [|done]. by apply (IH _ _ _ q).
Qed.

(** With every id a number, it returns. *)
Lemma grade_returns questions : ∀ answers correct rows,
  Forall (λ q, is_Some (py_int unicode_decimal (q_id q))) questions →
  ∃ res, grade lower unicode_decimal questions answers correct rows = Returns res.
Proof.
  induction questions as [|q0 questions IH]; intros answers correct rows Hall.
  - cbn. eauto.
  - inversion_clear Hall as [|?? [n Hn] Hall']. cbn [grade]. rewrite Hn. by apply IH.
Qed.
End AppFacts.

Section PageFacts.
Variable lower : pystr → pystr.
Variable unicode_decimal : N → option N.
Variable files : pystr → file.
Variable csv_path : pystr.

Local Abbreviation main' := (main lower unicode_decimal files csv_path).
Local Abbreviation load := (load_questions unicode_decimal files csv_path).

(** C4, on the code.  When a loaded question has an id that is no number,
    every run that reaches the result page crashes with [ValueError]: the
    loop over the questions calls [int] on the id with nothing to catch
    the exception, where the loader goes through [safe_int]. *)
Theorem non_numeric_id_crashes_result_page questions q ss inp :
  load = Returns questions →
  q ∈ questions → py_int unicode_decimal (q_id q) = None →
  (Z.of_nat (length questions) < page ss)%Z →
  main' (Some ss) inp = {| after := Some ss; shown := []; ended := Crashed ValueError |}.
Proof.
  intros Hload Hq Hid Hpage.
  rewrite (main_result_page _ _ _ _ questions) by done.
  unfold result_page. by rewrite (grade_raises _ _ _ _ _ _ q).
Qed.

(** C6. On the result page, once it is shown, the restart button sets the
    page to 0 and the answers to the empty dict and leaves the user name as
    it was.  The questions are no part of the store: every run loads them
    again from the file. *)
Theorem restart_resets questions ss inp res :
  load = Returns questions →
  (Z.of_nat (length questions) < page ss)%Z →
  grade lower unicode_decimal questions (answers ss) 0 [] = Returns res →
  restart_pressed inp = true →
  after (main' (Some ss) inp)
  = Some {| page := 0; answers := ∅; username := username ss |}
  ∧ ended (main' (Some ss) inp) = Rerun.
Proof.
  intros Hload Hpage Hgrade Hrestart.
  rewrite (main_result_page _ _ _ _ questions) by done.
  unfold result_page. rewrite Hgrade. destruct res as [correct rows].
  destruct (result_tier correct) as [img_name msg]. by rewrite Hrestart.
Qed.

(** C7. On a question page, a submission with no option selected for a
    question of type "객관식", or blank once trimmed for a question of type
    "주관식", shows a warning and stops the run; the store, and so the page
    and the answers, stays as it was. *)
Theorem invalid_submission_rejected questions ss inp :
  load = Returns questions →
  (1 ≤ page ss ≤ Z.of_nat (length questions))%Z →
  form_submitted inp = true →
  ∃ q, questions !! Z.to_nat (page ss - 1) = Some q
       ∧ (no_option_selected q (form_answer inp) →
          main' (Some ss) inp
          = {| after := Some ss; shown := [ShowWarning MSG_CHOOSE]; ended := Stopped |})
       ∧ (blank_subjective q (form_answer inp) →
          main' (Some ss) inp
          = {| after := Some ss; shown := [ShowWarning MSG_ENTER]; ended := Stopped |})
       ∧ (invalid_submission q (form_answer inp) →
          after (main' (Some ss) inp) = Some ss
          ∧ ended (main' (Some ss) inp) = Stopped
          ∧ ∃ msg, shown (main' (Some ss) inp) = [ShowWarning msg]).
Proof.
  intros Hload Hpage Hsub.
  destruct (main_question_page lower unicode_decimal files csv_path questions ss inp
              Hload Hpage) as (q & Hq & ->).
  exists q. split; [done|].
  assert (no_option_selected q (form_answer inp) →
          question_page q ss inp
          = {| after := Some ss; shown := [ShowWarning MSG_CHOOSE]; ended := Stopped |})
    as Hchoice.
  { intros [Ht Ha]. unfold question_page. rewrite Hsub, Ht, Ha. done. }
  assert (blank_subjective q (form_answer inp) →
          question_page q ss inp
          = {| after := Some ss; shown := [ShowWarning MSG_ENTER]; ended := Stopped |})
    as Hblank.
  { intros [Ht Ha]. unfold question_page. rewrite Hsub, Ht, Ha. done. }
  split; [done|]. split; [done|].
  intros [H|H]; [rewrite (Hchoice H)|rewrite (Hblank H)]; eauto.
Qed.

Lemma question_page_valid q ss inp :
  form_submitted inp = true →
  ¬ invalid_submission q (form_answer inp) →
  question_page q ss inp
  = {| after := Some {| page := page ss + 1;
                        answers := <[q_id q := strip (or_empty (form_answer inp))]> (answers ss);
                        username := username ss |};
       shown := []; ended := Rerun |}.
Proof.
  intros Hsub Hvalid. unfold question_page. rewrite Hsub.
  unfold invalid_submission, no_option_selected, blank_subjective in Hvalid.
  case_bool_decide as Hc; simpl.
  - destruct (falsy (form_answer inp)) eqn:Hf; [tauto|].
    case_bool_decide as Hs; simpl; [|done].
    rewrite Hc in Hs. discriminate.
  - case_bool_decide as Hs; simpl; [|done].
    case_bool_decide as Hb; simpl; [tauto|done].
Qed.

Lemma question_page_cases q ss inp :
  after (question_page q ss inp) = Some ss
  ∨ (form_submitted inp = true ∧ ¬ invalid_submission q (form_answer inp)
     ∧ page_of (after (question_page q ss inp)) = (page ss + 1)%Z).
Proof.
  destruct (form_submitted inp) eqn:Hsub; [|left; unfold question_page; by rewrite Hsub].
  destruct (decide (strip (q_type q) = TYPE_CHOICE ∧ falsy (form_answer inp) = true))
    as [[Ht Ha]|Hc].
  { left. unfold question_page. by rewrite Hsub, Ht, Ha. }
  destruct (decide (strip (q_type q) = TYPE_SUBJECTIVE
                    ∧ strip (or_empty (form_answer inp)) = [])) as [[Ht Ha]|Hb].
  { left. unfold question_page. rewrite Hsub, Ht, Ha. done. }
  right. split; [done|].
  assert (¬ invalid_submission q (form_answer inp)) as Hvalid by (intros [?|?]; done).
  split; [done|]. by rewrite question_page_valid.
Qed.

(** Over one run the page stays, or goes up by exactly 1 through the start
    button or a valid submission, or goes back to 0 through the restart
    button of the result page. *)
Lemma main_page_step store inp :
  page_of (after (main' store inp)) = page_of store
  ∨ (page_of (after (main' store inp)) = (page_of store + 1)%Z
     ∧ ((page_of store = 0%Z ∧ start_pressed inp = true)
        ∨ (form_submitted inp = true
           ∧ ∃ questions q,
               load = Returns questions
               ∧ (1 ≤ page_of store ≤ Z.of_nat (length questions))%Z
               ∧ questions !! Z.to_nat (page_of store - 1) = Some q
               ∧ ¬ invalid_submission q (form_answer inp))))
  ∨ (page_of (after (main' store inp)) = 0%Z ∧ restart_pressed inp = true
     ∧ ∃ questions, load = Returns questions
                    ∧ (Z.of_nat (length questions) < page_of store)%Z).
Proof.
  unfold main. destruct load as [questions| |] eqn:Hload; [|by left..].
  unfold page_of at 2 4 5 6 7 8. set (ss := default fresh_session store).
  destruct (Z.eqb_spec (page ss) 0) as [H0|H0].
  { unfold start_page. destruct (start_pressed inp); cbn; [|by left].
    right; left. unfold page_of; cbn. split; [lia|]. by left. }
  destruct (Z.leb_spec 1 (page ss)) as [H1|H1];
    destruct (Z.leb_spec (page ss) (Z.of_nat (length questions))) as [H2|H2]; cbn [andb].
  - destruct (questions !! _) as [q|] eqn:Hq; [|by left].
    destruct (question_page_cases q ss inp) as [->|(Hsub & Hvalid & ->)]; [by left|].
    right; left. split; [done|]. right. split; [done|]. exists questions, q. eauto.
  - destruct (Z.ltb_spec (Z.of_nat (length questions)) (page ss)) as [Hr|Hr]; [|by left].
    unfold result_page. repeat case_match; cbn; auto; right; right; eauto.
  - destruct (Z.ltb_spec (Z.of_nat (length questions)) (page ss)) as [Hr|Hr]; [lia|by left].
  - lia.
Qed.

(** C8. On the page of question [n], from 1 to the number of questions, a
    valid submission records the trimmed answer under the id of question
    [n] and moves to page [n + 1], which is the result page when [n] is the
    last question.  Over any run of the script the page stays, goes up by
    exactly 1 (through the start button or a valid submission), or goes
    back to 0 through the restart button of the result page; it never goes
    down otherwise. *)
Theorem valid_submission_advances :
  (∀ questions ss inp,
     load = Returns questions →
     (1 ≤ page ss ≤ Z.of_nat (length questions))%Z →
     form_submitted inp = true →
     ∃ q, questions !! Z.to_nat (page ss - 1) = Some q
          ∧ (¬ invalid_submission q (form_answer inp) →
             main' (Some ss) inp
             = {| after := Some {| page := page ss + 1;
                                   answers := <[q_id q := strip (or_empty (form_answer inp))]>
                                                (answers ss);
                                   username := username ss |};
                  shown := []; ended := Rerun |}
             ∧ (page ss = Z.of_nat (length questions) →
                (Z.of_nat (length questions) < page_of (after (main' (Some ss) inp)))%Z)))
  ∧ (∀ store inp,
       page_of (after (main' store inp)) = page_of store
       ∨ (page_of (after (main' store inp)) = (page_of store + 1)%Z
          ∧ ((page_of store = 0%Z ∧ start_pressed inp = true)
             ∨ (form_submitted inp = true
                ∧ ∃ questions q,
                    load = Returns questions
                    ∧ (1 ≤ page_of store ≤ Z.of_nat (length questions))%Z
                    ∧ questions !! Z.to_nat (page_of store - 1) = Some q
                    ∧ ¬ invalid_submission q (form_answer inp))))
       ∨ (page_of (after (main' store inp)) = 0%Z ∧ restart_pressed inp = true
          ∧ ∃ questions, load = Returns questions
                         ∧ (Z.of_nat (length questions) < page_of store)%Z)).
Proof.
  split; [|apply main_page_step].
  intros questions ss inp Hload Hpage Hsub.
  destruct (main_question_page lower unicode_decimal files csv_path questions ss inp
              Hload Hpage) as (q & Hq & ->).
  exists q. split; [done|]. intros Hvalid.
  rewrite question_page_valid by done. split; [done|].
  intros ->. unfold page_of; cbn. lia.
Qed.
End PageFacts.

(** ** The properties on concrete files *)

Lemma quiz_loaded :
  ∃ questions,
    load_questions no_unicode_digits (one_file QUIZ_CSV) CSV_NAME = Returns questions
    ∧ q_id <$> questions = py <$> ["1"; "2"; "3"]
    ∧ q_type <$> questions = [TYPE_SUBJECTIVE; TYPE_CHOICE; TYPE_SUBJECTIVE].
Proof. eexists. split; [vm_compute; reflexivity|]. split; vm_compute; reflexivity. Qed.

Lemma non_numeric_id_crashes_result_page_witness :
  (∃ q, load_questions no_unicode_digits (one_file ODD_ID_CSV) CSV_NAME = Returns [q]
        ∧ q_id q = py "abc")
  ∧ store_after ODD_ID_CSV [press_start (py "Kim"); submit (Some (py "a"))]
    = Some {| page := 2; answers := {[ py "abc" := py "a" ]}; username := py "Kim" |}
  ∧ main_on ODD_ID_CSV
      (Some {| page := 2; answers := {[ py "abc" := py "a" ]}; username := py "Kim" |}) idle
    = {| after := Some {| page := 2; answers := {[ py "abc" := py "a" ]};
                          username := py "Kim" |};
         shown := []; ended := Crashed ValueError |}.
Proof.
  split; [eexists; split; vm_compute; reflexivity|].
  split; [vm_compute; reflexivity|].
  eapply (non_numeric_id_crashes_result_page ascii_lower no_unicode_digits
            (one_file ODD_ID_CSV) CSV_NAME).
  - vm_compute. reflexivity.
  - left.
  - vm_compute. reflexivity.
  - vm_compute. reflexivity.
Defined.

Lemma restart_resets_witness :
  store_after QUIZ_CSV
    [press_start (py " Kim "); submit (Some (py "A")); submit (Some (py "b"));
     submit (Some (py "x"))]
  = Some {| page := 4;
            answers := <[py "3" := py "x"]> (<[py "2" := py "b"]> {[ py "1" := py "A" ]});
            username := py " Kim " |}
  ∧ after (main_on QUIZ_CSV
             (Some {| page := 4;
                      answers := <[py "3" := py "x"]>
                                   (<[py "2" := py "b"]> {[ py "1" := py "A" ]});
                      username := py " Kim " |}) press_restart)
    = Some {| page := 0; answers := ∅; username := py " Kim " |}.
Proof.
  split; [vm_compute; reflexivity|].
  eapply (restart_resets ascii_lower no_unicode_digits (one_file QUIZ_CSV) CSV_NAME).
  - vm_compute. reflexivity.
  - vm_compute. reflexivity.
  - vm_compute. reflexivity.
  - reflexivity.
Defined.

Lemma invalid_submission_rejected_witness :
  main_on QUIZ_CSV (Some {| page := 2; answers := {[ py "1" := py "A" ]}; username := [] |})
    (submit None)
  = {| after := Some {| page := 2; answers := {[ py "1" := py "A" ]}; username := [] |};
       shown := [ShowWarning MSG_CHOOSE]; ended := Stopped |}
  ∧ main_on QUIZ_CSV (Some {| page := 1; answers := ∅; username := [] |})
      (submit (Some (py "   ")))
    = {| after := Some {| page := 1; answers := ∅; username := [] |};
         shown := [ShowWarning MSG_ENTER]; ended := Stopped |}.
Proof.
  split.
  - destruct (invalid_submission_rejected ascii_lower no_unicode_digits
                (one_file QUIZ_CSV) CSV_NAME _
                {| page := 2; answers := {[ py "1" := py "A" ]}; username := [] |}
                (submit None) ltac:(vm_compute; reflexivity)
                ltac:(vm_compute; split; discriminate) eq_refl)
      as (q & Hq & Hchoice & _).
    vm_compute in Hq. injection Hq as <-. apply Hchoice. split; vm_compute; reflexivity.
  - destruct (invalid_submission_rejected ascii_lower no_unicode_digits
                (one_file QUIZ_CSV) CSV_NAME _
                {| page := 1; answers := ∅; username := [] |}
                (submit (Some (py "   "))) ltac:(vm_compute; reflexivity)
                ltac:(vm_compute; split; discriminate) eq_refl)
      as (q & Hq & _ & Hblank & _).
    vm_compute in Hq. injection Hq as <-. apply Hblank. split; vm_compute; reflexivity.
Defined.

Lemma valid_submission_advances_witness :
  main_on QUIZ_CSV
    (Some {| page := 3; answers := <[py "2" := py "b"]> {[ py "1" := py "A" ]};
             username := [] |})
    (submit (Some (py " x ")))
  = {| after := Some {| page := 3 + 1;
                        answers := <[py "3" := py "x"]>
                                     (<[py "2" := py "b"]> {[ py "1" := py "A" ]});
                        username := [] |};
       shown := []; ended := Rerun |}.
Proof.
  destruct (proj1 (valid_submission_advances ascii_lower no_unicode_digits
                     (one_file QUIZ_CSV) CSV_NAME) _
              {| page := 3; answers := <[py "2" := py "b"]> {[ py "1" := py "A" ]};
                 username := [] |}
              (submit (Some (py " x "))) ltac:(vm_compute; reflexivity)
              ltac:(vm_compute; split; discriminate) eq_refl)
    as (q & Hq & Hvalid).
  vm_compute in Hq. injection Hq as <-.
  destruct Hvalid as [E _].
  - intros [[Ht _]|[_ Hb]]; vm_compute in *; discriminate.
  - exact E.
Defined.

(** The end-to-end example of the specification: the answers "A", "b" and
    "x" to the three questions give two right answers, the marks O, O, X and
    the message of [result_tier 2]. *)
Lemma quiz_end_to_end :
  shown (main_on QUIZ_CSV
           (store_after QUIZ_CSV
              [press_start []; submit (Some (py "A")); submit (Some (py "b"));
               submit (Some (py "x"))]) idle)
  = [ShowHeader MSG_RESULT;
     ShowSuccess 3 2 (result_tier 2).2;
     ShowTable
       [{| r_number := 1; r_question := py "first"; r_mine := py "A";
           r_answer := py "a"; r_mark := MARK_O |};
        {| r_number := 2; r_question := py "second"; r_mine := py "b";
           r_answer := py "b"; r_mark := MARK_O |};
        {| r_number := 3; r_question := py "third"; r_mine := py "x";
           r_answer := py "c"; r_mark := MARK_X |}]].
Proof. vm_compute. reflexivity. Qed.

(** * Further properties of the script *)

(** ** Trimming and grading *)

Lemma lstrip_by_fixed p s :
  match s with [] => True | c :: _ => p c = false end → lstrip_by p s = s.
Proof. destruct s as [|c s]; simpl; [done|]. by intros ->. Qed.

Lemma lstrip_by_head p s :
  match lstrip_by p s with [] => True | c :: _ => p c = false end.
Proof.
  induction s as [|c s IH]; simpl; [done|].
  destruct (p c) eqn:Hc; [done|]. simpl. done.
Qed.

Lemma lstrip_by_idemp p s : lstrip_by p (lstrip_by p s) = lstrip_by p s.
Proof. apply lstrip_by_fixed, lstrip_by_head. Qed.

Lemma lstrip_by_snoc p l c :
  p c = false → lstrip_by p (l ++ [c]) = lstrip_by p l ++ [c].
Proof.
  intros Hc. induction l as [|x l IH]; simpl; [by rewrite Hc|].
  by destruct (p x).
Qed.

Lemma rstrip_by_cons p c s : p c = false → rstrip_by p (c :: s) = c :: rstrip_by p s.
Proof.
  intros Hc. unfold rstrip_by.
  by rewrite reverse_cons, lstrip_by_snoc, reverse_app by done.
Qed.

Lemma rstrip_by_idemp p s : rstrip_by p (rstrip_by p s) = rstrip_by p s.
Proof. unfold rstrip_by. by rewrite reverse_involutive, lstrip_by_idemp. Qed.

(** Trimming a trimmed text changes nothing. *)
Lemma strip_idemp s : strip (strip s) = strip s.
Proof.
  unfold strip. pose proof (lstrip_by_head is_space s) as Hhead.
  destruct (lstrip_by is_space s) as [|c x]; [done|].
  rewrite (rstrip_by_cons _ c x) by done.
  rewrite (lstrip_by_fixed _ (c :: _)) by done.
  by rewrite (rstrip_by_cons _ c) by done; rewrite rstrip_by_idemp.
Qed.

(** A trimmed text neither starts nor ends with white space. *)
Lemma strip_ends s :
  match strip s with [] => True | c :: _ => is_space c = false end
  ∧ match reverse (strip s) with [] => True | c :: _ => is_space c = false end.
Proof.
  split.
  - unfold strip. pose proof (lstrip_by_head is_space s) as Hhead.
    destruct (lstrip_by is_space s) as [|c x]; [done|].
    by rewrite (rstrip_by_cons _ c x) by done.
  - unfold strip, rstrip_by. rewrite reverse_involutive. apply lstrip_by_head.
Qed.

Section JudgeFacts.
Variable lower : pystr → pystr.

(** X1. Whatever the type, an answer is right against itself, and grading
    does not depend on which text is the submitted one and which the
    reference; two texts that are right against each other under the exact
    comparison are right under the comparison of the type "주관식" too. *)
Theorem judge_equivalence (s r t : option pystr) :
  judge lower s s t = true
  ∧ judge lower s r t = judge lower r s t
  ∧ (t ≠ Some TYPE_SUBJECTIVE → judge lower s r t = true →
     judge lower s r (Some TYPE_SUBJECTIVE) = true).
Proof.
  unfold judge. split; [|split].
  - case_bool_decide; by rewrite bool_decide_eq_true_2.
  - case_bool_decide; apply bool_decide_ext; split; intros H'; by rewrite H'.
  - intros Ht. rewrite (bool_decide_eq_false_2 _ Ht).
    rewrite (bool_decide_eq_true_2 (Some TYPE_SUBJECTIVE = Some TYPE_SUBJECTIVE)) by done.
    rewrite !bool_decide_eq_true. intros H'. by rewrite H'.
Qed.

Lemma judge_strip_submitted (u : pystr) (v t : option pystr) :
  judge lower (Some (strip u)) v t = judge lower (Some u) v t.
Proof. unfold judge, or_empty; simpl. by rewrite strip_idemp. Qed.

Lemma judge_strip_reference (u : option pystr) (v : pystr) (t : option pystr) :
  judge lower u (Some (strip v)) t = judge lower u (Some v) t.
Proof. unfold judge, or_empty; simpl. by rewrite strip_idemp. Qed.

(** X2. Grading a text and grading the same text already trimmed give the
    same answer, on either side: the page stores the trimmed submission and
    the result page grades what is stored. *)
Theorem judge_of_trimmed (u v : pystr) (t : option pystr) :
  judge lower (Some (strip u)) (Some v) t = judge lower (Some u) (Some v) t
  ∧ judge lower (Some u) (Some (strip v)) t = judge lower (Some u) (Some v) t.
Proof. split; [apply judge_strip_submitted|apply judge_strip_reference]. Qed.
End JudgeFacts.

Lemma judge_equivalence_witness :
  judge ascii_lower (Some (py "b")) (Some (py " b ")) (Some TYPE_SUBJECTIVE) = true.
Proof.
  apply (judge_equivalence ascii_lower (Some (py "b")) (Some (py " b ")) (Some TYPE_CHOICE)).
  - discriminate.
  - vm_compute. reflexivity.
Defined.

(** ** Tiers *)

(** X3. [result_tier] returns one of the four tiers, and a higher score
    never gives a lower tier. *)
Theorem result_tier_monotone (s1 s2 : Z) :
  (s1 ≤ s2)%Z →
  ∃ i j, TIERS !! i = Some (result_tier s1) ∧ TIERS !! j = Some (result_tier s2)
         ∧ (i ≤ j)%nat.
Proof.
  assert (∀ s, ∃ i, TIERS !! i = Some (result_tier s)
                    ∧ ((i = 0%nat ∧ s ≤ 5) ∨ (i = 1%nat ∧ 6 ≤ s ≤ 10)
                       ∨ (i = 2%nat ∧ 11 ≤ s ≤ 15) ∨ (i = 3%nat ∧ 16 ≤ s))%Z) as Hrank.
  { intros s. unfold result_tier.
    destruct (Z.leb_spec s 5); [exists 0%nat; split; [done|lia]|].
    destruct (Z.leb_spec 6 s); [|lia].
    destruct (Z.leb_spec s 10); [exists 1%nat; split; [done|lia]|].
    destruct (Z.leb_spec 11 s); [|lia].
    destruct (Z.leb_spec s 15); [exists 2%nat; split; [done|lia]|].
    exists 3%nat; split; [done|lia]. }
  intros Hle. destruct (Hrank s1) as (i & Hi & Hi'), (Hrank s2) as (j & Hj & Hj').
  exists i, j. split; [done|]. split; [done|]. lia.
Qed.

Lemma result_tier_monotone_witness :
  ∃ i j, TIERS !! i = Some (result_tier 4) ∧ TIERS !! j = Some (result_tier 12)
         ∧ (i ≤ j)%nat.
Proof. apply (result_tier_monotone 4 12). lia. Defined.

(** ** The result page *)

Section GradeFacts.
Variable lower : pystr → pystr.
Variable unicode_decimal : N → option N.

Lemma marked_right_cons row rows :
  marked_right (row :: rows)
  = if bool_decide (r_mark row = MARK_O) then row :: marked_right rows else marked_right rows.
Proof. reflexivity. Qed.

Lemma marked_right_length rows : (length (marked_right rows) ≤ length rows)%nat.
Proof. unfold marked_right. apply List.filter_length_le. Qed.

(** The loop appends one row for each question, in order, and adds to the
    count the number of the rows it marks right. *)
Lemma grade_appends questions : ∀ answers correct0 rows0 correct rows,
  grade lower unicode_decimal questions answers correct0 rows0 = Returns (correct, rows) →
  ∃ new, rows = rows0 ++ new
         ∧ Forall2 (row_for lower unicode_decimal answers) questions new
         ∧ correct = (correct0 + Z.of_nat (length (marked_right new)))%Z.
Proof.
  induction questions as [|q questions IH]; intros answers correct0 rows0 correct rows.
  - cbn. intros [= <- <-]. exists []. rewrite app_nil_r. split; [done|].
    split; [constructor|]. cbn. lia.
  - cbn [grade]. destruct (py_int unicode_decimal (q_id q)) as [number|] eqn:Hid; [|done].
    intros Hgrade. apply IH in Hgrade as (new & -> & Hrows & ->).
    eexists (_ :: new). rewrite <- app_assoc. split; [done|].
    split.
    + constructor; [|done]. unfold row_for. cbn. done.
    + rewrite marked_right_cons. cbn [r_mark].
      destruct (judge lower _ _ _); [rewrite bool_decide_eq_true_2 by done; cbn; lia|].
      rewrite bool_decide_eq_false_2 by done. lia.
Qed.

Lemma grade_result questions answers correct rows :
  grade lower unicode_decimal questions answers 0 [] = Returns (correct, rows) →
  Forall2 (row_for lower unicode_decimal answers) questions rows
  ∧ length rows = length questions
  ∧ correct = Z.of_nat (length (marked_right rows))
  ∧ (0 ≤ correct ≤ Z.of_nat (length questions))%Z.
Proof.
  intros Hgrade. apply grade_appends in Hgrade as (new & -> & Hrows & ->).
  cbn [app]. pose proof (Forall2_length _ _ _ Hrows) as Hlen.
  pose proof (marked_right_length new).
  split; [done|]. split; [done|]. split; lia.
Qed.

(** X4. When the loop of the result page returns, the table has one row
    for each question, in the order of the questions; each row holds the
    number of the id, the question, the recorded answer (the empty text for
    a question with no recorded answer), the reference answer and the mark
    of [judge]; and the count is the number of rows marked right, so it lies
    between 0 and the number of questions. *)
Theorem grade_counts_marks questions answers correct rows :
  grade lower unicode_decimal questions answers 0 [] = Returns (correct, rows) →
  Forall2 (row_for lower unicode_decimal answers) questions rows
  ∧ length rows = length questions
  ∧ correct = Z.of_nat (length (marked_right rows))
  ∧ (0 ≤ correct ≤ Z.of_nat (length questions))%Z.
Proof. apply grade_result. Qed.

(** The loop never stops the run, and what it raises is [ValueError]. *)
Lemma grade_outcome questions : ∀ answers correct0 rows0,
  (∃ res, grade lower unicode_decimal questions answers correct0 rows0 = Returns res
          ∧ Forall (λ q, is_Some (py_int unicode_decimal (q_id q))) questions)
  ∨ (grade lower unicode_decimal questions answers correct0 rows0 = Raises ValueError
     ∧ ∃ q, q ∈ questions ∧ py_int unicode_decimal (q_id q) = None).
Proof.
  induction questions as [|q questions IH]; intros answers correct0 rows0.
  - left. cbn. eauto.
  - cbn [grade]. destruct (py_int unicode_decimal (q_id q)) as [number|] eqn:Hid.
    + destruct (IH answers
                  (if judge lower (Some (default [] (answers !! q_id q)))
                        (Some (q_answer q)) (Some (q_type q))
                   then (correct0 + 1)%Z else correct0)
                  (rows0 ++ [{| r_number := number; r_question := q_question q;
                                r_mine := default [] (answers !! q_id q);
                                r_answer := q_answer q;
                                r_mark := if judge lower (Some (default [] (answers !! q_id q)))
                                               (Some (q_answer q)) (Some (q_type q))
                                          then MARK_O else MARK_X |}]))
        as [(res & Hres & Hall)|(Hraise & q' & Hq' & Hnone)].
      * left. exists res. split; [done|]. constructor; [by eexists|done].
      * right. split; [done|]. exists q'. split; [by right|done].
    + right. split; [done|]. exists q. split; [left|done].
Qed.

(** X5. The loop of the result page returns or raises [ValueError]: it ends
    the run in no other way.  It raises exactly when some question has an
    id that [int] does not read, and returns exactly when every id is read,
    whatever the answers recorded. *)
Theorem grade_raises_iff questions answers correct0 rows0 :
  ((∃ e, grade lower unicode_decimal questions answers correct0 rows0 = Raises e)
   ↔ ∃ q, q ∈ questions ∧ py_int unicode_decimal (q_id q) = None)
  ∧ ((∃ res, grade lower unicode_decimal questions answers correct0 rows0 = Returns res)
     ↔ Forall (λ q, is_Some (py_int unicode_decimal (q_id q))) questions)
  ∧ (∀ e, grade lower unicode_decimal questions answers correct0 rows0 = Raises e →
          e = ValueError)
  ∧ (∀ notices,
       grade lower unicode_decimal questions answers correct0 rows0 ≠ Stops notices).
Proof.
  destruct (grade_outcome questions answers correct0 rows0)
    as [(res & Hres & Hall)|(Hraise & q & Hq & Hnone)].
  - rewrite Hres. repeat split; try done; eauto.
    + by intros [e ?].
    + intros (q & Hq & Hnone). rewrite Forall_forall in Hall.
      destruct (Hall q Hq) as [n Hn]. congruence.
  - rewrite Hraise. repeat split; try done; eauto.
    + by intros [res ?].
    + intros Hall. rewrite Forall_forall in Hall.
      destruct (Hall q Hq) as [n Hn]. congruence.
    + by intros e [= <-].
Qed.
End GradeFacts.

Lemma grade_counts_marks_witness :
  ∃ correct rows,
    grade ascii_lower no_unicode_digits
      [ {| q_id := py "1"; q_question := py "first"; q_type := TYPE_SUBJECTIVE;
           q_image := []; q_choices := [[]; []; []]; q_answer := py "a" |};
        {| q_id := py "2"; q_question := py "second"; q_type := TYPE_CHOICE;
           q_image := []; q_choices := [py "a"; py "b"; []]; q_answer := py "b" |} ]
      {[ py "1" := py "A" ]} 0 []
    = Returns (correct, rows)
    ∧ correct = 1%Z ∧ r_mine <$> rows = [py "A"; []].
Proof.
  eexists _, _. split; [vm_compute; reflexivity|].
  destruct (grade_counts_marks ascii_lower no_unicode_digits _ _ _ _
              (eq_refl : grade ascii_lower no_unicode_digits
                 [ {| q_id := py "1"; q_question := py "first"; q_type := TYPE_SUBJECTIVE;
                      q_image := []; q_choices := [[]; []; []]; q_answer := py "a" |};
                   {| q_id := py "2"; q_question := py "second"; q_type := TYPE_CHOICE;
                      q_image := []; q_choices := [py "a"; py "b"; []];
                      q_answer := py "b" |} ]
                 {[ py "1" := py "A" ]} 0 [] = Returns _))
    as (_ & _ & Hcount & _).
  split; [exact Hcount|]. vm_compute. reflexivity.
Defined.

Section ResultPageFacts.
Variable lower : pystr → pystr.
Variable unicode_decimal : N → option N.
Variable files : pystr → file.
Variable csv_path : pystr.

Local Abbreviation main' := (main lower unicode_decimal files csv_path).
Local Abbreviation load := (load_questions unicode_decimal files csv_path).

(** What the result page shows when its loop returns. *)
Lemma result_page_shown questions ss inp correct rows :
  grade lower unicode_decimal questions (answers ss) 0 [] = Returns (correct, rows) →
  shown (result_page lower unicode_decimal questions ss inp)
  = [ShowHeader (match strip (username ss) with
                 | [] => MSG_RESULT
                 | _ => strip (username ss) ++ MSG_RESULT_OF
                 end);
     ShowSuccess (Z.of_nat (length questions)) correct (result_tier correct).2;
     ShowTable rows]
  ∧ ended (result_page lower unicode_decimal questions ss inp)
    = (if restart_pressed inp then Rerun else Returned).
Proof.
  intros Hgrade. unfold result_page. rewrite Hgrade.
  destruct (result_tier correct) as [img msg]. by destruct (restart_pressed inp).
Qed.

(** X6. The count that the result page shows lies between 0 and the number
    of questions, and the message is that of the tier of the count: with at
    most 5 questions it is always the message of the first tier, and with
    at most 15 questions never that of the fourth. *)
Theorem result_message_bounded questions ss inp total correct msg :
  load = Returns questions →
  (Z.of_nat (length questions) < page ss)%Z →
  ShowSuccess total correct msg ∈ shown (main' (Some ss) inp) →
  total = Z.of_nat (length questions)
  ∧ (0 ≤ correct ≤ Z.of_nat (length questions))%Z
  ∧ msg = (result_tier correct).2
  ∧ ((length questions ≤ 5)%nat → msg = TIER1.2)
  ∧ ((length questions ≤ 15)%nat → msg ≠ TIER4.2).
Proof.
  intros Hload Hpage.
  rewrite (main_result_page lower unicode_decimal files csv_path questions) by done.
  destruct (grade_outcome lower unicode_decimal questions (answers ss) 0 [])
    as [([c rows] & Hres & _)|(Hraise & _)].
  - destruct (result_page_shown questions ss inp c rows Hres) as [-> _].
    intros Hin.
    apply elem_of_cons in Hin as [?|Hin]; [done|].
    apply elem_of_cons in Hin as [[= -> -> ->]|Hin].
    + destruct (grade_result lower unicode_decimal _ _ _ _ Hres) as (_ & _ & _ & Hc).
      split; [done|]. split; [done|]. split; [done|]. split.
      * intros HN. unfold result_tier. destruct (Z.leb_spec c 5); [done|lia].
      * intros HN. unfold result_tier.
        destruct (Z.leb_spec c 5); [by vm_compute|].
        destruct (Z.leb_spec 6 c); [|lia].
        destruct (Z.leb_spec c 10); [by vm_compute|].
        destruct (Z.leb_spec 11 c); [|lia].
        destruct (Z.leb_spec c 15); [by vm_compute|lia].
    + apply elem_of_cons in Hin as [?|Hin]; [done|]. by apply elem_of_nil in Hin.
  - unfold result_page. rewrite Hraise. cbn. intros Hin. by apply elem_of_nil in Hin.
Qed.
End ResultPageFacts.

Lemma result_message_bounded_witness :
  ShowSuccess 3 1 TIER1.2
  ∈ shown (main ascii_lower no_unicode_digits (one_file QUIZ_CSV) CSV_NAME
             (Some {| page := 4; answers := {[ py "1" := py "A" ]}; username := [] |}) idle)
  ∧ TIER1.2 = (result_tier 1).2.
Proof.
  assert (ShowSuccess 3 1 TIER1.2
          ∈ shown (main ascii_lower no_unicode_digits (one_file QUIZ_CSV) CSV_NAME
                     (Some {| page := 4; answers := {[ py "1" := py "A" ]}; username := [] |})
                     idle)) as Hin.
  { apply (list_elem_of_lookup_2 _ 1%nat). vm_compute. reflexivity. }
  split; [exact Hin|].
  edestruct (result_message_bounded ascii_lower no_unicode_digits (one_file QUIZ_CSV) CSV_NAME)
    as (_ & _ & Hm & _).
  3: exact Hin.
  - vm_compute. reflexivity.
  - vm_compute. reflexivity.
  - exact Hm.
Defined.

(** ** The state machine *)

Section MachineFacts.
Variable lower : pystr → pystr.
Variable unicode_decimal : N → option N.
Variable files : pystr → file.
Variable csv_path : pystr.

Local Abbreviation main' := (main lower unicode_decimal files csv_path).
Local Abbreviation load := (load_questions unicode_decimal files csv_path).
Local Abbreviation run_all' := (run_all lower unicode_decimal files csv_path).

Lemma main_after_cases store inp :
  after (main' store inp) = store
  ∨ ∃ questions, load = Returns questions ∧
      let ss := default fresh_session store in
      (page ss = 0%Z
       ∧ after (main' store inp)
         = Some {| page := if start_pressed inp then 1 else 0;
                   answers := answers ss; username := typed_name inp |})
      ∨ (∃ q, (1 ≤ page ss ≤ Z.of_nat (length questions))%Z
              ∧ questions !! Z.to_nat (page ss - 1) = Some q
              ∧ form_submitted inp = true
              ∧ ¬ invalid_submission q (form_answer inp)
              ∧ after (main' store inp)
                = Some {| page := page ss + 1;
                          answers := <[q_id q := strip (or_empty (form_answer inp))]>
                                       (answers ss);
                          username := username ss |})
      ∨ ((Z.of_nat (length questions) < page ss)%Z
         ∧ restart_pressed inp = true
         ∧ after (main' store inp)
           = Some {| page := 0; answers := ∅; username := username ss |}).
Proof.
  unfold main. destruct load as [questions| |] eqn:Hload; [|by left..].
  set (ss := default fresh_session store).
  assert (store ≠ None → store = Some ss) as Hstore.
  { destruct store; [done|]. by intros []. }
  destruct (Z.eqb_spec (page ss) 0) as [H0|H0].
  { right. exists questions. split; [done|]. left. split; [done|].
    unfold start_page, set_page, set_username.
    destruct (start_pressed inp); cbn; [done|by rewrite H0]. }
  assert (store = Some ss) as Hsome.
  { apply Hstore. intros ->. by apply H0. }
  destruct (Z.leb_spec 1 (page ss)) as [H1|H1];
    destruct (Z.leb_spec (page ss) (Z.of_nat (length questions))) as [H2|H2]; cbn [andb].
  - destruct (questions !! _) as [q|] eqn:Hq; [|by left].
    destruct (form_submitted inp) eqn:Hsub;
      [|left; unfold question_page; by rewrite Hsub].
    destruct (decide (invalid_submission q (form_answer inp))) as [Hinv|Hvalid].
    + left. unfold question_page. rewrite Hsub.
      destruct Hinv as [[Ht Ha]|[Ht Ha]]; rewrite Ht, Ha; [done|].
      by destruct (bool_decide (TYPE_SUBJECTIVE = TYPE_CHOICE) && falsy (form_answer inp)).
    + right. exists questions. split; [done|]. right; left. exists q.
      rewrite question_page_valid by done. done.
  - destruct (Z.ltb_spec (Z.of_nat (length questions)) (page ss)) as [Hr|Hr]; [|by left].
    unfold result_page.
    destruct (grade _ _ _ _ _ _) as [[correct rows]| |]; [|by left..].
    destruct (result_tier correct) as [img msg].
    destruct (restart_pressed inp) eqn:Hrestart; [|by left].
    right. exists questions. split; [done|]. right; right. done.
  - destruct (Z.ltb_spec (Z.of_nat (length questions)) (page ss)) as [Hr|Hr]; [lia|by left].
  - lia.
Qed.

(** X7. What one run can do to the store.  It leaves it as it is; or, on
    the start page, it records the text of the name box and, with the start
    button, moves to page 1; or, on a question page, it records a valid
    submission under the id of the question and moves one page on; or, on
    the result page, the restart button empties the answers and moves to
    page 0.  Nothing else changes the store: the name changes on the start
    page only, an answer is recorded by a valid submission only, and no run
    removes or changes the answer of another id. *)
Theorem main_transitions store inp :
  after (main' store inp) = store
  ∨ ∃ questions, load = Returns questions ∧
      let ss := default fresh_session store in
      (page ss = 0%Z
       ∧ after (main' store inp)
         = Some {| page := if start_pressed inp then 1 else 0;
                   answers := answers ss; username := typed_name inp |})
      ∨ (∃ q, (1 ≤ page ss ≤ Z.of_nat (length questions))%Z
              ∧ questions !! Z.to_nat (page ss - 1) = Some q
              ∧ form_submitted inp = true
              ∧ ¬ invalid_submission q (form_answer inp)
              ∧ after (main' store inp)
                = Some {| page := page ss + 1;
                          answers := <[q_id q := strip (or_empty (form_answer inp))]>
                                       (answers ss);
                          username := username ss |})
      ∨ ((Z.of_nat (length questions) < page ss)%Z
         ∧ restart_pressed inp = true
         ∧ after (main' store inp)
           = Some {| page := 0; answers := ∅; username := username ss |}).
Proof. apply main_after_cases. Qed.
End MachineFacts.

Lemma elem_of_passed_ids questions p k :
  k ∈ passed_ids questions p
  ↔ ∃ i q, (Z.of_nat i < p - 1)%Z ∧ questions !! i = Some q ∧ q_id q = k.
Proof.
  unfold passed_ids. rewrite list_elem_of_fmap. split.
  - intros (q & -> & Hq). apply list_elem_of_lookup in Hq as [i Hi].
    apply lookup_take_Some in Hi as [Hi Hlt]. exists i, q. split; [lia|done].
  - intros (i & q & Hlt & Hi & <-). exists q. split; [done|].
    apply list_elem_of_lookup. exists i. apply lookup_take_Some. split; [done|lia].
Qed.

Section InvariantFacts.
Variable lower : pystr → pystr.
Variable unicode_decimal : N → option N.
Variable files : pystr → file.
Variable csv_path : pystr.

Local Abbreviation main' := (main lower unicode_decimal files csv_path).
Local Abbreviation load := (load_questions unicode_decimal files csv_path).
Local Abbreviation run_all' := (run_all lower unicode_decimal files csv_path).

Lemma main_keeps_order questions store inp :
  load = Returns questions →
  session_in_order questions store →
  session_in_order questions (after (main' store inp)).
Proof.
  intros Hload Hord.
  destruct (main_after_cases lower unicode_decimal files csv_path store inp)
    as [->|(questions' & Hload' & Hcases)]; [done|].
  assert (questions' = questions) as -> by congruence.
  unfold session_in_order, page_of in *. destruct Hord as [Hpage Hkeys].
  cbn zeta in Hcases.
  set (ss := default fresh_session store) in *.
  destruct Hcases as [(H0 & ->)|[(q & Hrange & Hq & Hsub & Hvalid & ->)|(Hlt & Hrestart & ->)]];
    cbn [from_option id page answers].
  - split; [destruct (start_pressed inp); lia|].
    intros k Hk. apply Hkeys, elem_of_passed_ids in Hk as (i & q & Hlt & _). lia.
  - split; [lia|]. intros k Hk. apply elem_of_passed_ids.
    destruct (decide (q_id q = k)) as [<-|Hne].
    + exists (Z.to_nat (page ss - 1)), q. split; [lia|done].
    + rewrite lookup_insert_ne in Hk by done.
      apply Hkeys, elem_of_passed_ids in Hk as (i & q' & Hlt & Hi & Hid).
      exists i, q'. split; [lia|done].
  - split; [lia|]. intros k Hk. rewrite lookup_empty in Hk. by destruct Hk.
Qed.

(** X8. From a store not yet set up, and as long as the file gives the same
    questions, any series of runs keeps the page between 0 and the page of
    the result (the number of questions plus 1), and every recorded answer
    is filed under the id of a question before the page. *)
Theorem runs_keep_order questions inps :
  load = Returns questions →
  (0 ≤ page_of (run_all' None inps) ≤ Z.of_nat (length questions) + 1)%Z
  ∧ ∀ k, is_Some (answers (default fresh_session (run_all' None inps)) !! k) →
         k ∈ passed_ids questions (page_of (run_all' None inps)).
Proof.
  intros Hload.
  assert (∀ store, session_in_order questions store →
                   session_in_order questions (run_all' store inps)) as Hall.
  { induction inps as [|inp inps IH]; intros store Hstore; [done|].
    cbn. apply IH. by apply main_keeps_order. }
  apply Hall. split; [cbn; lia|]. intros k Hk. cbn in Hk.
  rewrite lookup_empty in Hk. by destruct Hk.
Qed.
End InvariantFacts.

Lemma runs_keep_order_witness :
  (0 ≤ page_of (run_all ascii_lower no_unicode_digits (one_file QUIZ_CSV) CSV_NAME None
                  [press_start (py "Kim"); submit (Some (py "A")); submit None;
                   submit (Some (py "b"))])
   ≤ 3 + 1)%Z.
Proof.
  destruct (runs_keep_order ascii_lower no_unicode_digits (one_file QUIZ_CSV) CSV_NAME
              _ [press_start (py "Kim"); submit (Some (py "A")); submit None;
                 submit (Some (py "b"))]
              ltac:(vm_compute; reflexivity)) as [Hpage _].
  exact Hpage.
Defined.

Section TraversalFacts.
Variable lower : pystr → pystr.
Variable unicode_decimal : N → option N.
Variable files : pystr → file.
Variable csv_path : pystr.

Local Abbreviation main' := (main lower unicode_decimal files csv_path).
Local Abbreviation load := (load_questions unicode_decimal files csv_path).
Local Abbreviation run_all' := (run_all lower unicode_decimal files csv_path).

Lemma submissions_advance questions name : ∀ rest given passed m,
  load = Returns questions →
  questions = passed ++ rest →
  Forall2 (λ q a, ¬ invalid_submission q a) rest given →
  run_all' (Some {| page := Z.of_nat (length passed) + 1; answers := m; username := name |})
    (submit <$> given)
  = Some {| page := Z.of_nat (length questions) + 1;
            answers := record_all rest given m; username := name |}.
Proof.
  induction rest as [|q rest IH]; intros given passed m Hload Hqs Hvalid.
  - inversion Hvalid; subst. rewrite app_nil_r. done.
  - inversion Hvalid as [|? a ? given' Hq Hrest]; subst. cbn [fmap list_fmap run_all foldl].
    destruct (main_question_page lower unicode_decimal files csv_path
                (passed ++ q :: rest)
                {| page := Z.of_nat (length passed) + 1; answers := m; username := name |}
                (submit a) Hload) as (q0 & Hq0 & ->).
    { cbn. rewrite length_app. cbn. lia. }
    cbn in Hq0. replace (Z.to_nat (Z.of_nat (length passed) + 1 - 1)) with (length passed) in Hq0 by lia.
    rewrite list_lookup_middle in Hq0 by done. injection Hq0 as <-.
    rewrite question_page_valid by done. cbn [after page answers username form_answer submit].
    specialize (IH given' (passed ++ [q])
                  (<[q_id q := strip (or_empty a)]> m) Hload).
    rewrite length_app in IH. cbn in IH.
    replace (Z.of_nat (length passed) + 1 + 1)%Z with (Z.of_nat (length passed + 1) + 1)%Z by lia.
    rewrite <- (assoc_L app) in IH. apply IH; done.
Qed.

(** X9. From a store not yet set up, the start button with a name typed
    and then one valid submission for each question, in order, lead to the
    result page with the name kept and each trimmed submission recorded
    under the id of its question (of two questions with one id, the
    submission to the later one is what stays recorded). *)
Theorem valid_submissions_reach_result questions name given :
  load = Returns questions →
  Forall2 (λ q a, ¬ invalid_submission q a) questions given →
  run_all' None (press_start name :: (submit <$> given))
  = Some {| page := Z.of_nat (length questions) + 1;
            answers := record_all questions given ∅; username := name |}.
Proof.
  intros Hload Hvalid. cbn [run_all foldl].
  assert (after (main' None (press_start name))
          = Some {| page := Z.of_nat (length (@nil question)) + 1; answers := ∅;
                    username := name |}) as ->.
  { unfold main. rewrite Hload. reflexivity. }
  by apply (submissions_advance questions name questions given []).
Qed.
End TraversalFacts.

Lemma valid_submissions_reach_result_witness :
  run_all ascii_lower no_unicode_digits (one_file QUIZ_CSV) CSV_NAME None
    (press_start (py "Kim") :: (submit <$> [Some (py "A"); Some (py "b"); Some (py " x ")]))
  = Some {| page := 3 + 1;
            answers := <[py "3" := py "x"]> (<[py "2" := py "b"]> {[ py "1" := py "A" ]});
            username := py "Kim" |}.
Proof.
  destruct quiz_loaded as (questions & Hload & Hids & Htypes).
  pose proof Hload as Hload'. vm_compute in Hload'. injection Hload' as <-.
  rewrite (valid_submissions_reach_result ascii_lower no_unicode_digits
             (one_file QUIZ_CSV) CSV_NAME _ (py "Kim")
             [Some (py "A"); Some (py "b"); Some (py " x ")] Hload).
  - vm_compute. reflexivity.
  - repeat constructor; intros [[Ht Ha]|[Ht Ha]]; vm_compute in Ht, Ha; discriminate.
Defined.

(** ** The score of a full series of submissions *)

Lemma record_all_cons q questions a given m :
  record_all (q :: questions) (a :: given) m
  = record_all questions given (<[q_id q := strip (or_empty a)]> m).
Proof. reflexivity. Qed.

Lemma record_all_lookup_other questions : ∀ given m k,
  k ∉ q_id <$> questions → record_all questions given m !! k = m !! k.
Proof.
  induction questions as [|q questions IH]; intros given m k Hk; [done|].
  destruct given as [|a given]; [done|].
  rewrite fmap_cons in Hk. apply not_elem_of_cons in Hk as [Hne Hk].
  rewrite record_all_cons, IH by done. by rewrite lookup_insert_ne.
Qed.

(** With pairwise distinct ids, each question finds its own submission
    recorded. *)
Lemma record_all_lookup questions : ∀ given m i q a,
  NoDup (q_id <$> questions) →
  questions !! i = Some q → given !! i = Some a →
  record_all questions given m !! q_id q = Some (strip (or_empty a)).
Proof.
  induction questions as [|q0 questions IH]; intros given m i q a Hnodup Hq Ha; [done|].
  destruct given as [|a0 given]; [done|].
  rewrite fmap_cons in Hnodup. apply NoDup_cons in Hnodup as [Hnotin Hnodup].
  rewrite record_all_cons. destruct i as [|i]; simpl in Hq, Ha.
  - injection Hq as ->. injection Ha as ->.
    rewrite record_all_lookup_other by done. by rewrite lookup_insert_eq.
  - by apply (IH given _ i).
Qed.

Section ScoreFacts.
Variable lower : pystr → pystr.
Variable unicode_decimal : N → option N.

Lemma judge_or_empty a r t : judge lower (Some (or_empty a)) r t = judge lower a r t.
Proof. by destruct a. Qed.

Lemma marks_match answers questions : ∀ rows given,
  Forall2 (row_for lower unicode_decimal answers) questions rows →
  length given = length questions →
  (∀ i q a, questions !! i = Some q → given !! i = Some a →
            answers !! q_id q = Some (strip (or_empty a))) →
  Z.of_nat (length (marked_right rows)) = right_answers lower questions given.
Proof.
  unfold right_answers.
  induction questions as [|q questions IH]; intros rows given Hrows Hlen Hans.
  - inversion Hrows. by destruct given.
  - inversion Hrows as [|? row ? rows' Hrow Hrows']; subst.
    destruct given as [|a given]; [done|].
    destruct Hrow as (_ & _ & _ & _ & Hmark).
    rewrite (Hans 0%nat q a eq_refl eq_refl) in Hmark. cbn [from_option id] in Hmark.
    assert (judge lower (Some (strip (or_empty a))) (Some (q_answer q)) (Some (q_type q))
            = judge lower a (Some (q_answer q)) (Some (q_type q))) as Hj.
    { rewrite judge_strip_submitted. apply judge_or_empty. }
    rewrite Hj in Hmark.
    assert (Z.of_nat (length (marked_right rows'))
            = Z.of_nat (length (List.filter
                                  (λ qa : question * option pystr,
                                     judge lower qa.2 (Some (q_answer qa.1))
                                       (Some (q_type qa.1)))
                                  (zip questions given)))) as Hrest.
    { apply IH; [done|cbn in Hlen; lia|].
      intros i q' a' Hq' Ha'. by apply (Hans (S i)). }
    rewrite marked_right_cons, Hmark.
    change (zip (q :: questions) (a :: given)) with ((q, a) :: zip questions given).
    cbn [List.filter fst snd].
    destruct (judge lower a (Some (q_answer q)) (Some (q_type q))).
    + rewrite bool_decide_eq_true_2 by done. cbn [length]. lia.
    + rewrite bool_decide_eq_false_2 by done. done.
Qed.

(** X10. When the ids of the questions are pairwise distinct numbers and
    one submission has been recorded for each question, the count of the
    result page is the number of the questions whose submission [judge]
    finds right against the reference answer, under the type of the
    question. *)
Theorem score_is_right_answers questions given :
  NoDup (q_id <$> questions) →
  Forall (λ q, is_Some (py_int unicode_decimal (q_id q))) questions →
  length given = length questions →
  ∃ rows,
    grade lower unicode_decimal questions (record_all questions given ∅) 0 []
    = Returns (right_answers lower questions given, rows).
Proof.
  intros Hnodup Hnum Hlen.
  destruct (grade_outcome lower unicode_decimal questions
              (record_all questions given ∅) 0 [])
    as [([correct rows] & Hres & _)|(_ & q & Hq & Hnone)].
  - exists rows. rewrite Hres.
    destruct (grade_result lower unicode_decimal _ _ _ _ Hres) as (Hrows & _ & -> & _).
    f_equal. f_equal.
    apply (marks_match (record_all questions given ∅) questions rows given); [done..|].
    intros i q a Hq Ha. by apply (record_all_lookup questions given ∅ i).
  - rewrite Forall_forall in Hnum. destruct (Hnum q Hq) as [n Hn]. congruence.
Qed.
End ScoreFacts.

Lemma quiz_is_QUIZ :
  load_questions no_unicode_digits (one_file QUIZ_CSV) CSV_NAME = Returns QUIZ.
Proof. vm_compute. reflexivity. Qed.

Lemma score_is_right_answers_witness :
  ∃ rows,
    grade ascii_lower no_unicode_digits QUIZ
      (record_all QUIZ [Some (py "A"); Some (py "b"); Some (py "x")] ∅) 0 []
    = Returns (2%Z, rows).
Proof.
  destruct (score_is_right_answers ascii_lower no_unicode_digits QUIZ
              [Some (py "A"); Some (py "b"); Some (py "x")]) as [rows Hrows].
  - apply (bool_decide_unpack _). by vm_compute.
  - repeat constructor; by eexists.
  - reflexivity.
  - exists rows. vm_compute (right_answers _ _ _) in Hrows. exact Hrows.
Defined.

(** ** The form of a question page *)

Lemma radio_option_not_empty q c : c ∈ radio_options q → c ≠ [].
Proof.
  unfold radio_options. rewrite list_elem_of_In, filter_In, negb_true_iff.
  intros [_ Hc]. by apply bool_decide_eq_false in Hc.
Qed.

Section FormFacts.
Variable lower : pystr → pystr.
Variable unicode_decimal : N → option N.
Variable files : pystr → file.
Variable csv_path : pystr.

Local Abbreviation main' := (main lower unicode_decimal files csv_path).
Local Abbreviation load := (load_questions unicode_decimal files csv_path).

(** X11. On the page of a question of type "객관식", a submission moves to
    the next page exactly when an option of the radio is selected; the
    options are the non-empty choices, so a question with no non-empty
    choice can never be passed: every submission leaves the store as it
    was. *)
Theorem choice_question_needs_option questions ss inp :
  load = Returns questions →
  (1 ≤ page ss ≤ Z.of_nat (length questions))%Z →
  form_submitted inp = true →
  ∃ q, questions !! Z.to_nat (page ss - 1) = Some q
       ∧ (strip (q_type q) = TYPE_CHOICE →
          widget_returns q (form_answer inp) →
          (page_of (after (main' (Some ss) inp)) = (page ss + 1)%Z
           ↔ ∃ c, c ∈ radio_options q ∧ form_answer inp = Some c)
          ∧ (radio_options q = [] → after (main' (Some ss) inp) = Some ss)).
Proof.
  intros Hload Hpage Hsub.
  destruct (main_question_page lower unicode_decimal files csv_path questions ss inp
              Hload Hpage) as (q & Hq & ->).
  exists q. split; [done|]. intros Ht Hw.
  unfold widget_returns in Hw. rewrite bool_decide_eq_true_2 in Hw by done.
  assert (form_answer inp = None → question_page q ss inp
          = {| after := Some ss; shown := [ShowWarning MSG_CHOOSE]; ended := Stopped |})
    as Hnone.
  { intros Ha. unfold question_page. by rewrite Hsub, Ht, Ha. }
  assert (∀ c, c ∈ radio_options q → form_answer inp = Some c →
               page_of (after (question_page q ss inp)) = (page ss + 1)%Z) as Hsome.
  { intros c Hc Ha.
    pose proof (radio_option_not_empty q c Hc) as Hne.
    assert (¬ invalid_submission q (form_answer inp)) as Hvalid.
    { intros [[_ Hf]|[Ht' _]].
      - rewrite Ha in Hf. by destruct c.
      - rewrite Ht in Ht'. discriminate. }
    rewrite question_page_valid by done. done. }
  split.
  - split.
    + intros Hstep. destruct Hw as [Ha|Hw]; [|done].
      rewrite (Hnone Ha) in Hstep. unfold page_of in Hstep. cbn in Hstep. lia.
    + intros (c & Hc & Ha). by apply (Hsome c).
  - intros Hempty. destruct Hw as [Ha|(c & Hc & _)].
    + by rewrite (Hnone Ha).
    + rewrite Hempty in Hc. by apply elem_of_nil in Hc.
Qed.

(** X12. On the page of a question whose type, once trimmed, is neither
    "객관식" nor "주관식", every submission is accepted, a blank one
    included: the trimmed text is recorded and the page moves on. *)
Theorem other_type_accepts_any questions ss inp :
  load = Returns questions →
  (1 ≤ page ss ≤ Z.of_nat (length questions))%Z →
  form_submitted inp = true →
  ∃ q, questions !! Z.to_nat (page ss - 1) = Some q
       ∧ (strip (q_type q) ≠ TYPE_CHOICE → strip (q_type q) ≠ TYPE_SUBJECTIVE →
          main' (Some ss) inp
          = {| after := Some {| page := page ss + 1;
                                answers := <[q_id q := strip (or_empty (form_answer inp))]>
                                             (answers ss);
                                username := username ss |};
               shown := []; ended := Rerun |}).
Proof.
  intros Hload Hpage Hsub.
  destruct (main_question_page lower unicode_decimal files csv_path questions ss inp
              Hload Hpage) as (q & Hq & ->).
  exists q. split; [done|]. intros Hc Hs.
  assert (¬ invalid_submission q (form_answer inp)) as Hvalid
    by (by intros [[? _]|[? _]]).
  rewrite question_page_valid by done. done.
Qed.
End FormFacts.

Lemma choice_question_needs_option_witness :
  after (main_on ODD_FORM_CSV (Some {| page := 1; answers := ∅; username := [] |})
           (submit None))
  = Some {| page := 1; answers := ∅; username := [] |}.
Proof.
  destruct (choice_question_needs_option ascii_lower no_unicode_digits
              (one_file ODD_FORM_CSV) CSV_NAME _
              {| page := 1; answers := ∅; username := [] |} (submit None)
              ltac:(vm_compute; reflexivity) ltac:(vm_compute; split; discriminate) eq_refl)
    as (q & Hq & Hchoice).
  vm_compute in Hq. injection Hq as <-.
  destruct Hchoice as [_ Hstuck]; [vm_compute; reflexivity|by left|].
  apply Hstuck. vm_compute. reflexivity.
Defined.

Lemma other_type_accepts_any_witness :
  main_on ODD_FORM_CSV (Some {| page := 2; answers := ∅; username := [] |})
    (submit (Some (py "  ")))
  = {| after := Some {| page := 2 + 1; answers := {[ py "2" := [] ]}; username := [] |};
       shown := []; ended := Rerun |}.
Proof.
  destruct (other_type_accepts_any ascii_lower no_unicode_digits
              (one_file ODD_FORM_CSV) CSV_NAME _
              {| page := 2; answers := ∅; username := [] |} (submit (Some (py "  ")))
              ltac:(vm_compute; reflexivity) ltac:(vm_compute; split; discriminate) eq_refl)
    as (q & Hq & Hother).
  vm_compute in Hq. injection Hq as <-.
  apply Hother; vm_compute; discriminate.
Defined.

(** ** The header and the order of the rows *)

Lemma clean_name_boms n name : clean_name (replicate n BOM ++ name) = clean_name name.
Proof.
  unfold clean_name. apply lstrip_by_app_l, Forall_replicate. reflexivity.
Qed.

Lemma spec_question_clean_names f1 f2 rec :
  clean_name <$> f1 = clean_name <$> f2 → spec_question f1 rec = spec_question f2 rec.
Proof. intros H. unfold spec_question, spec_field. by rewrite H. Qed.

(** X13. The header is read up to leading byte-order marks: two headers
    whose names agree once the leading marks are removed give the same
    question for every line, and any number of marks before a name is
    removed. *)
Theorem header_marks_ignored (f1 f2 rec : list pystr) :
  clean_name <$> f1 = clean_name <$> f2 →
  make_item (make_field_map f1) (dict_of_record f1 rec)
  = make_item (make_field_map f2) (dict_of_record f2 rec)
  ∧ ∀ n name, clean_name (replicate n BOM ++ name) = clean_name name.
Proof.
  intros H. split; [|apply clean_name_boms].
  rewrite !make_item_refines. f_equal. by apply spec_question_clean_names.
Qed.

Lemma header_marks_ignored_witness :
  make_item (make_field_map [BOM :: BOM :: py "id"; py "answer"])
    (dict_of_record [BOM :: BOM :: py "id"; py "answer"] [py "7"; py " x "])
  = Returns {| q_id := py "7"; q_question := []; q_type := []; q_image := [];
               q_choices := [[]; []; []]; q_answer := py "x" |}.
Proof.
  destruct (header_marks_ignored [BOM :: BOM :: py "id"; py "answer"]
              [py "id"; py "answer"] [py "7"; py " x "] eq_refl) as [-> _].
  vm_compute. reflexivity.
Defined.

Section OrderFacts.
Context {A : Type} (key : A → Z).

Lemma filter_has_key_short k l :
  NoDup (key <$> l) → (length (List.filter (has_key key k) l) ≤ 1)%nat.
Proof.
  induction l as [|x l IH]; [cbn; lia|].
  rewrite fmap_cons. intros Hnodup. apply NoDup_cons in Hnodup as [Hnotin Hnodup].
  rewrite filter_has_key_cons. destruct (Z.eqb_spec (key x) k) as [<-|Hne]; [|by apply IH].
  destruct (List.filter (has_key key (key x)) l) as [|y ys] eqn:Hf; [cbn; lia|].
  exfalso. apply Hnotin.
  assert (In y (List.filter (has_key key (key x)) l)) as Hin by (rewrite Hf; by left).
  apply filter_In in Hin as [Hin Hy]. apply Z.eqb_eq in Hy. rewrite <- Hy.
  apply list_elem_of_fmap. exists y. split; [done|]. by apply list_elem_of_In.
Qed.

Lemma filter_Permutation_bool (P : A → bool) l1 l2 :
  l1 ≡ₚ l2 → List.filter P l1 ≡ₚ List.filter P l2.
Proof.
  induction 1 as [|x l1 l2 _ IH|x y l|l1 l2 l3 _ IH1 _ IH2]; cbn.
  - done.
  - destruct (P x); [by f_equiv|done].
  - destruct (P x), (P y); try done. apply Permutation_swap.
  - by etrans.
Qed.

(** With pairwise distinct keys the sort gives the same list for every
    order of its input. *)
Lemma sort_by_key_any_order (l1 l2 : list A) :
  l1 ≡ₚ l2 → NoDup (key <$> l1) → sort_by_key key l1 = sort_by_key key l2.
Proof.
  intros Hperm Hnodup.
  apply (sorted_stable_unique key); [apply sort_by_key_sorted..|].
  intros k. rewrite !sort_by_key_stable.
  pose proof (filter_Permutation_bool (has_key key k) l1 l2 Hperm) as Hf.
  pose proof (filter_has_key_short k l1 Hnodup) as Hlen.
  destruct (List.filter (has_key key k) l1) as [|x [|y ys]]; [| |cbn in Hlen; lia].
  - by apply Permutation_nil_l.
  - by apply Permutation_singleton_l.
Qed.
End OrderFacts.

(** X14. When the keys are pairwise distinct, the sort gives the same list
    for every order of its input: the order of the loaded questions then
    does not depend on the order of the rows in the file.  So two files
    whose rows give the same items in different orders, with ids of
    pairwise distinct keys, load to the same list. *)
Theorem sort_ignores_input_order :
  (∀ (A : Type) (key : A → Z) (l1 l2 : list A),
     l1 ≡ₚ l2 → NoDup (key <$> l1) → sort_by_key key l1 = sort_by_key key l2)
  ∧ (∀ unicode_decimal files1 files2 path1 path2 items1 items2,
       read_items files1 path1 = Returns items1 →
       read_items files2 path2 = Returns items2 →
       items1 ≡ₚ items2 → NoDup (sort_key unicode_decimal <$> items1) →
       load_questions unicode_decimal files1 path1
       = load_questions unicode_decimal files2 path2).
Proof.
  split; [intros A key; apply sort_by_key_any_order|].
  intros unicode_decimal files1 files2 path1 path2 items1 items2 E1 E2 Hperm Hnodup.
  unfold load_questions. rewrite E1, E2. cbn. f_equal.
  by apply sort_by_key_any_order.
Qed.

Lemma sort_ignores_input_order_witness :
  sort_by_key (sort_key no_unicode_digits)
    [ {| q_id := py "2"; q_question := []; q_type := []; q_image := [];
         q_choices := []; q_answer := [] |};
      {| q_id := py "x"; q_question := []; q_type := []; q_image := [];
         q_choices := []; q_answer := [] |};
      {| q_id := py "1"; q_question := []; q_type := []; q_image := [];
         q_choices := []; q_answer := [] |} ]
  = sort_by_key (sort_key no_unicode_digits)
      [ {| q_id := py "x"; q_question := []; q_type := []; q_image := [];
           q_choices := []; q_answer := [] |};
        {| q_id := py "1"; q_question := []; q_type := []; q_image := [];
           q_choices := []; q_answer := [] |};
        {| q_id := py "2"; q_question := []; q_type := []; q_image := [];
           q_choices := []; q_answer := [] |} ].
Proof.
  apply (proj1 sort_ignores_input_order).
  - apply (Permutation_cons_append [_; _]).
  - apply (bool_decide_unpack _). by vm_compute.
Defined.

(** ** The limit of [int] on the number of digits *)

Lemma mapM_to_ascii unicode_decimal s :
  Forall (λ c, c < 0x80) s → mapM (to_ascii_char unicode_decimal) s = Some s.
Proof.
  intros Hs. apply mapM_Some. induction Hs as [|c s Hc _ IH]; constructor; [|done].
  unfold to_ascii_char. destruct (N.ltb_spec c 0x80); [done|lia].
Qed.

Lemma scan_digits_all s : ∀ acc digits prev,
  Forall (λ c, 0x30 ≤ c ≤ 0x39) s → s ≠ [] ∨ prev ≠ UNDERSCORE →
  ∃ v, scan_digits acc digits prev s = Some (v, digits + N.of_nat (length s), []).
Proof.
  induction s as [|c s IH]; intros acc digits prev Hs Hprev.
  - destruct Hprev as [?|Hprev]; [done|]. cbn.
    destruct (N.eqb_spec prev UNDERSCORE); [done|]. exists acc. by rewrite N.add_0_r.
  - inversion_clear Hs as [|?? Hc Hs']. cbn [scan_digits].
    assert (c ≠ UNDERSCORE) as Hne by (unfold UNDERSCORE; lia).
    destruct (N.eqb_spec c UNDERSCORE); [done|].
    unfold digit_value.
    destruct (N.leb_spec 0x30 c); [|lia]. destruct (N.leb_spec c 0x39); [|lia]. cbn.
    destruct (IH (10 * acc + Z.of_N (c - 48))%Z (digits + 1) c Hs') as [v ->]; [by right|].
    exists v. cbn [length].
    by replace (digits + N.of_nat (S (length s))) with (digits + 1 + N.of_nat (length s)) by lia.
Qed.

Section DigitLimit.
Variable lower : pystr → pystr.
Variable unicode_decimal : N → option N.

Lemma py_int_digits s :
  Forall (λ c, 0x30 ≤ c ≤ 0x39) s → s ≠ [] →
  if MAX_STR_DIGITS <? N.of_nat (length s) then py_int unicode_decimal s = None
  else is_Some (py_int unicode_decimal s).
Proof.
  intros Hs Hne. unfold py_int. rewrite mapM_to_ascii.
  2: { eapply Forall_impl; [exact Hs|]. cbn. lia. }
  cbn [mbind option_bind]. unfold long_from_string.
  destruct s as [|c s]; [done|]. pose proof Hs as Hs0.
  inversion_clear Hs as [|?? Hc Hs']. cbn [lstrip_by].
  assert (is_c_space c = false) as ->.
  { unfold is_c_space. destruct (N.leb_spec 9 c), (N.leb_spec c 13), (N.eqb_spec c 32);
      cbn; try done; lia. }
  destruct (N.eqb_spec c 0x2B); [lia|]. destruct (N.eqb_spec c 0x2D); [lia|].
  destruct (N.eqb_spec c UNDERSCORE); [unfold UNDERSCORE in *; lia|].
  destruct (scan_digits_all (c :: s) 0 0 0 Hs0) as [v ->]; [by left|].
  cbn [mbind option_bind]. rewrite bool_decide_eq_false_2 by done.
  rewrite N.add_0_l. by destruct (_ <? _).
Qed.

(** X15. [int] reads a text of decimal digits up to 4300 digits and no
    longer one.  So a question whose id has more digits counts as one whose
    id is no number: the loader sorts it under the sentinel, and the loop of
    the result page raises [ValueError] on it. *)
Theorem long_id_is_no_number (q : question) :
  Forall (λ c, 0x30 ≤ c ≤ 0x39) (q_id q) → q_id q ≠ [] →
  (N.of_nat (length (q_id q)) ≤ MAX_STR_DIGITS → is_Some (py_int unicode_decimal (q_id q)))
  ∧ (MAX_STR_DIGITS < N.of_nat (length (q_id q)) →
     py_int unicode_decimal (q_id q) = None
     ∧ sort_key unicode_decimal q = SENTINEL
     ∧ ∀ questions answers correct rows,
         q ∈ questions →
         grade lower unicode_decimal questions answers correct rows = Raises ValueError).
Proof.
  intros Hdigits Hne. pose proof (py_int_digits (q_id q) Hdigits Hne) as H.
  destruct (N.ltb_spec MAX_STR_DIGITS (N.of_nat (length (q_id q)))) as [Hlong|Hshort].
  - split; [lia|]. intros _. split; [done|].
    split; [unfold sort_key, safe_int; by rewrite H|].
    intros questions answers correct rows Hq. by apply (grade_raises _ _ _ _ _ _ q).
  - split; [done|]. lia.
Qed.
End DigitLimit.

Lemma long_id_is_no_number_witness :
  py_int no_unicode_digits (replicate 4301 0x31) = None
  ∧ is_Some (py_int no_unicode_digits (replicate 4300 0x31)).
Proof.
  split.
  - apply (long_id_is_no_number ascii_lower no_unicode_digits
             {| q_id := replicate 4301 0x31; q_question := []; q_type := []; q_image := [];
                q_choices := []; q_answer := [] |}).
    + apply Forall_replicate. lia.
    + done.
    + cbn [q_id]. rewrite length_replicate. unfold MAX_STR_DIGITS. lia.
  - apply (long_id_is_no_number ascii_lower no_unicode_digits
             {| q_id := replicate 4300 0x31; q_question := []; q_type := []; q_image := [];
                q_choices := []; q_answer := [] |}).
    + apply Forall_replicate. lia.
    + done.
    + cbn [q_id]. rewrite length_replicate. unfold MAX_STR_DIGITS. lia.
Defined.

(** ** One question for each line *)

(** Outside a quoted field and past the first character of a line, the
    automaton is in a field, or between two fields with a field saved. *)
Lemma parse_process_char_started r c r' :
  plain c → c ≠ QUOTECHAR →
  state r = START_RECORD ∨ state r = IN_FIELD ∨ (state r = START_FIELD ∧ fields r ≠ []) →
  parse_process_char r (Some c) = Some r' →
  state r' = IN_FIELD ∨ (state r' = START_FIELD ∧ fields r' ≠ []).
Proof.
  unfold plain. intros Hc Hq Hr. apply N.eqb_neq in Hq.
  assert (∀ l : list pystr, l ++ [field r] ≠ []) as Hsaved.
  { intros l E. by apply app_eq_nil in E as [_ ?]. }
  unfold parse_process_char, start_field.
  destruct (parse_add_char_cases r c) as [[-> _]|[-> _]];
    destruct Hr as [-> |[-> |[-> Hf]]]; rewrite ?Hc, ?Hq;
    destruct (c =? DELIMITER); cbn; intros [= <-]; cbn; auto.
Qed.

Lemma parse_line_started body : ∀ r ln r',
  Forall plain body → QUOTECHAR ∉ body →
  ln = body ∨ ln = body ++ [LF] →
  (state r = START_RECORD ∧ body ≠ [])
  ∨ state r = IN_FIELD ∨ (state r = START_FIELD ∧ fields r ≠ []) →
  parse_line r ln = Some r' → fields r' ≠ [].
Proof.
  assert (∀ (l : list pystr) f, l ++ [f] ≠ []) as Hsaved.
  { intros l f E. by apply app_eq_nil in E as [_ ?]. }
  induction body as [|c body IH]; intros r ln r' Hbody Hq Hln Hr.
  - destruct Hr as [[_ ?]|Hr]; [done|].
    destruct Hln as [-> | ->]; cbn; unfold parse_process_char, start_field;
      destruct Hr as [-> |[-> Hf]]; cbn; intros [= <-]; cbn; done.
  - inversion_clear Hbody as [|?? Hc Hbody']. apply not_elem_of_cons in Hq as [Hne Hq].
    assert (∀ ln', ln' = body ∨ ln' = body ++ [LF] →
            parse_line r (c :: ln') = Some r' → fields r' ≠ []) as Hstep.
    { intros ln' Hln'. cbn [parse_line].
      destruct (parse_process_char r (Some c)) as [r1|] eqn:E1; [|done].
      cbn [mbind option_bind]. apply (IH r1 ln' r' Hbody' Hq Hln'). right.
      apply (parse_process_char_started r c r1 Hc); [congruence| |done].
      destruct Hr as [[-> _]|Hr]; auto. }
    destruct Hln as [-> | ->]; apply Hstep; auto.
Qed.

(** Lines without a quote character, none of them empty and each shorter
    than the limit: the reader yields one record for each line, and none
    of the records is empty. *)
Lemma read_records_per_line lines :
  Forall (Forall plain) lines → Forall (λ ln, ln ≠ []) lines →
  short_unquoted_lines lines →
  ∃ recs, read_records parse_reset (close_lines lines) = (recs, true)
          ∧ length recs = length lines ∧ Forall (λ rec, rec ≠ []) recs.
Proof.
  intros Hplain Hne Hshort.
  assert (∀ ln ln', Forall plain ln → ln ≠ [] →
            (QUOTECHAR ∉ ln) ∧ N.of_nat (length ln) < FIELD_LIMIT →
            ln' = ln ∨ ln' = ln ++ [LF] →
            ∃ r', parse_line parse_reset ln' = Some r'
                  ∧ state r' = START_RECORD ∧ fields r' ≠ []) as Hline.
  { intros ln ln' Hln Hln0 [Hq Hlen] Hln'.
    assert (QUOTECHAR ∉ ln') as Hq'.
    { destruct Hln' as [-> | ->]; [done|].
      rewrite not_elem_of_app, not_elem_of_cons. repeat split; [done|done|apply not_elem_of_nil]. }
    assert (length ln' ≤ S (length ln))%nat as Hlen'.
    { destruct Hln' as [-> | ->]; [lia|]. rewrite length_app. cbn. lia. }
    destruct (parse_line_reader_line ln' parse_reset) as [[_ Hover]|(r' & E & _ & _ & Hst)].
    - exists ln. split; [|done]. by destruct Hln'; [left|right].
    - done.
    - cbn in Hover. lia.
    - exists r'. split; [done|]. split; [by apply Hst|].
      apply (parse_line_started ln parse_reset ln' r' Hln Hq Hln'); [|done]. by left. }
  unfold short_unquoted_lines in Hshort.
  induction Hplain as [|ln [|ln2 lines] Hln _ IH]; [by eexists| |].
  - inversion_clear Hne as [|?? Hln0 _]. inversion_clear Hshort as [|?? Hq _].
    cbn [close_lines read_records].
    destruct (Hline ln ln Hln Hln0 Hq) as (r' & -> & Hst & Hf); [by left|].
    rewrite Hst, bool_decide_eq_true_2 by done. cbn.
    eexists. split; [done|]. split; [done|]. by repeat constructor.
  - inversion_clear Hne as [|?? Hln0 Hne']. inversion_clear Hshort as [|?? Hq Hshort'].
    change (close_lines (ln :: ln2 :: lines)) with ((ln ++ [LF]) :: close_lines (ln2 :: lines)).
    cbn [read_records].
    destruct (Hline ln (ln ++ [LF]) Hln Hln0 Hq) as (r' & -> & Hst & Hf); [by right|].
    rewrite Hst, bool_decide_eq_true_2 by done.
    destruct (IH Hne' Hshort') as (recs & -> & Hlen & Hrecs).
    eexists. split; [done|]. split; [cbn [length]; by rewrite Hlen|]. by constructor.
Qed.

Lemma data_records_all recs : Forall (λ rec, rec ≠ []) recs → data_records recs = recs.
Proof.
  unfold data_records. induction 1 as [|rec recs Hrec _ IH]; [done|].
  cbn [List.filter]. rewrite bool_decide_eq_false_2 by done. cbn. by rewrite IH.
Qed.

(** X16. A file without a double quote whose usable lines are each
    shorter than the limit of a field loads to one question for each usable
    line after the first, which is the header.  Blank lines between the
    rows do not count: the usable lines of a text joined from lines are the
    lines that are not blank, in their order. *)
Theorem one_question_per_line unicode_decimal files csv_path text :
  files csv_path = Readable text → usable_lines text ≠ [] →
  short_unquoted_lines (usable_lines text) →
  (∃ items,
     load_questions unicode_decimal files csv_path = Returns items
     ∧ length items = (length (usable_lines text) - 1)%nat)
  ∧ ∀ lines,
      Forall (Forall (λ c, is_linebreak c = false)) lines →
      head (join_lines lines) ≠ Some BOM →
      usable_lines (join_lines lines) = nonblank_lines lines.
Proof.
  intros Hfile Hne Hshort. split; [|apply usable_lines_join].
  destruct (read_records_per_line (usable_lines text)) as (recs & Hcsv & Hlen & Hrecs);
    [apply usable_lines_plain| |done|].
  { apply Forall_forall. intros ln. apply usable_lines_nonblank. }
  destruct recs as [|fieldnames records].
  { destruct (usable_lines text); done. }
  inversion_clear Hrecs as [|?? _ Hrecords].
  fold (csv_reader (close_lines (usable_lines text))) in Hcsv.
  rewrite <- io_lines_usable in Hcsv.
  pose proof (read_items_reader files csv_path text _ _ Hfile Hne Hcsv) as Hitems.
  cbn in Hitems. rewrite data_records_all in Hitems by done.
  eexists. split; [unfold load_questions; by rewrite Hitems|].
  rewrite (Permutation_length (sort_by_key_perm _ _)), length_fmap.
  cbn [length] in Hlen. lia.
Qed.

Lemma one_question_per_line_witness :
  ∃ items,
    load_questions no_unicode_digits (one_file SHORT_ROWS_CSV) CSV_NAME = Returns items
    ∧ length (splitlines SHORT_ROWS_CSV) = 4%nat
    ∧ length (usable_lines SHORT_ROWS_CSV) = 3%nat
    ∧ length items = 2%nat.
Proof.
  destruct (one_question_per_line no_unicode_digits (one_file SHORT_ROWS_CSV) CSV_NAME
              SHORT_ROWS_CSV eq_refl) as [(items & Hload & Hlen) _].
  - vm_compute. discriminate.
  - unfold short_unquoted_lines. apply (bool_decide_unpack _). vm_compute. reflexivity.
  - exists items. split; [exact Hload|]. split; [vm_compute; reflexivity|].
    split; [vm_compute; reflexivity|]. rewrite Hlen. vm_compute. reflexivity.
Defined.
